(** * GTMForge: the generation-session controller of the web client

    A shallow embedding of the three client components that drive one
    generation run,

    - [archive/web/app/page.tsx]            (the view shell, [Home]),
    - [archive/web/components/IdeaForm.tsx] (the submit operation),
    - [ProgressView]                        (the live progress stream),

    together with the small part of the browser they run on: the clock,
    pending timers, the WebSocket connections, the console and the list of
    network requests issued. The two screens that a run ends on,
    [archive/web/components/ResultsView.tsx] and [ErrorView], are embedded
    apart, each as a component of its own: what [ResultsView] fetches when
    it mounts is not part of the requests recorded for the client.

    Conventions of the embedding.
    - A JavaScript string is a [string]; every character stands for one code
      unit below 256.
    - A JavaScript number that the progress stream carries is a finite
      number, and every finite double is a rational: it is modelled as a [Q]
      and compared with [==]. The code does no arithmetic on it but
      [Math.round], which is exact, and prints it as [Number::toString]
      does: with the shortest digits that identify the double, and with an
      exponent from 10^21 on.
    - A property that may be missing from a JSON object is an [option]
      ([None] is [undefined]). The properties of a frame have the types
      that the interface [ProgressUpdate] declares; the [detail] of an
      error response, which is typed nowhere, is any JSON value.
    - A frame is given by what [JSON.parse] makes of its text, and a
      response by what [fetch] and [json()] settle to; the body of a
      response, when it parses, is an object.
    - One event of the browser's event loop is one step of the model: the
      handler runs to completion and React commits the resulting render
      before the next event is delivered. A submission is one such step:
      nothing else happens while [handleSubmit] awaits the backend, its
      pause of 100 ms included.
    - A timer fires when the clock reaches its due time; a socket delivers
      no event after [close()] was called on it, and the server or the
      network may close it at any time.
    - A render that throws is caught by no component of the client: React
      unmounts the tree, and from then on no handler of the client runs.
    - The [loading] flag of [IdeaForm], the markup and the styles are left
      out, and so is the second run of every effect that React's strict
      mode adds in development builds. *)

From Stdlib Require Import ZArith NArith QArith Qround Lia Ascii.
From Stdlib Require String.
From stdpp Require Import gmap strings list pretty.

Local Open Scope Z_scope.

(** ** JavaScript strings *)

(** [WhiteSpace] and [LineTerminator] code units below 256: TAB, LF, VT, FF,
    CR, SP and NBSP. They are what [String.prototype.trim] strips. *)
Definition isWhiteSpace (c : ascii) : bool :=
  match c with
  | "009" | "010" | "011" | "012" | "013" | " " | "160" => true
  | _ => false
  end%char.

Fixpoint trimStart (s : string) : string :=
  match s with
  | String c s' => if isWhiteSpace c then trimStart s' else s
  | EmptyString => EmptyString
  end.

Definition trimEnd (s : string) : string :=
  String.rev (trimStart (String.rev s)).

Definition trim (s : string) : string := trimEnd (trimStart s).

(** [s.split(sep)] for a non-empty separator: the pieces between successive
    occurrences of [sep], found left to right without overlap. [skip] counts
    the characters of a separator still to be passed over, [cur] is the
    current piece, reversed. *)
Fixpoint split_go (sep : string) (skip : nat) (cur s : string) : list string :=
  match s with
  | EmptyString => [String.rev cur]
  | String c s' =>
      match skip with
      | S k => split_go sep k cur s'
      | O =>
          if String.prefix sep s
          then String.rev cur :: split_go sep (String.length sep - 1) "" s'
          else split_go sep 0 (String c cur) s'
      end
  end.

Definition split (sep s : string) : list string := split_go sep 0 "" s.

(** [s.indexOf(sep)], as a reference point for [split]. *)
Definition indexOf (sep s : string) : option nat := String.index 0 sep s.

(** Truthiness of the values the code tests with [!] and [||]. *)
Definition truthy_string (s : string) : bool :=
  match s with EmptyString => false | _ => true end.

Definition truthy (v : option string) : bool :=
  match v with Some s => truthy_string s | None => false end.

(** [v || d] where [v] is a string or [undefined]. *)
Definition or_string (v : option string) (d : string) : string :=
  match v with
  | Some s => if truthy_string s then s else d
  | None => d
  end.

(** [v || d] where [v] is a number or [undefined]; the only falsy finite
    number is zero. *)
Definition or_number (v : option Q) (d : Q) : Q :=
  match v with
  | Some n => if Qeq_bool n 0 then d else n
  | None => d
  end.

(** [`${v}`] for a string or [undefined]. *)
Definition template_string (v : option string) : string :=
  match v with Some s => s | None => "undefined" end.

(** [Math.round(x)]: the nearest integer, a tie going up. *)
Definition Math_round (x : Q) : Z := Qfloor (x + (1 # 2)).

(** ** JavaScript numbers as text *)

Definition pow (b : Z) (e : Z) : Q :=
  if (0 <=? e) then inject_Z (b ^ e) else (1 / inject_Z (b ^ (- e)))%Q.

(** For a positive [q], the exponent [e] with [2^e <= q < 2^(e+1)] and the
    exponent [n] with [10^(n-1) <= q < 10^n]. *)
Definition log2_floor (q : Q) : Z :=
  let e := Z.log2 (Qnum q) - Z.log2 (Zpos (Qden q)) in
  if Qle_bool (pow 2 e) q then e else e - 1.

Fixpoint adjust_decimal (fuel : nat) (q : Q) (n : Z) : Z :=
  match fuel with
  | O => n
  | S fuel' =>
      if Qle_bool (pow 10 n) q then adjust_decimal fuel' q (n + 1)
      else if Qle_bool (pow 10 (n - 1)) q then n
      else adjust_decimal fuel' q (n - 1)
  end.

Definition decimal_exponent (q : Q) : Z :=
  adjust_decimal 8 q (log2_floor q * 30103 / 100000 + 1).

(** The reals that round to the double [q]: those within half the distance
    to the next double on either side, the ends included when the
    significand of [q] is even. Just below a power of two the doubles are
    twice as dense. *)
Definition rounds_to (q : Q) : Q → bool :=
  let e := log2_floor q in
  let ulp := pow 2 (Z.max e (-1022) - 52) in
  let m := Qfloor (q / ulp) in
  let above := (ulp / 2)%Q in
  let below := if (m =? 2 ^ 52) && (-1022 <? e) then (ulp / 4)%Q else (ulp / 2)%Q in
  λ r,
    if Z.even m
    then Qle_bool (q - below) r && Qle_bool r (q + above)
    else negb (Qle_bool r (q - below)) && negb (Qle_bool (q + above) r).

(** The digits [s] and the exponent [n] of the shortest decimal
    [s * 10^(n-k)], [k] being the number of digits of [s], that rounds to
    [q]; among the shortest the one closest to [q], and of two equally
    close ones the even one. Seventeen digits always suffice. *)
Fixpoint shortest (fuel : nat) (q : Q) (n k : Z) : Z * Z :=
  let scale := pow 10 (n - k) in
  let s := Qfloor (q / scale) in
  let lower := (inject_Z s * scale)%Q in
  let upper := (inject_Z (s + 1) * scale)%Q in
  let up := if (s + 1 =? 10 ^ k) then (10 ^ (k - 1), n + 1) else (s + 1, n) in
  match fuel with
  | O => (s, n)
  | S fuel' =>
      match rounds_to q lower, rounds_to q upper with
      | true, true =>
          match (q - lower ?= upper - q)%Q with
          | Lt => (s, n)
          | Gt => up
          | Eq => if Z.even s then (s, n) else up
          end
      | true, false => (s, n)
      | false, true => up
      | false, false => shortest fuel' q n (k + 1)
      end
  end.

Fixpoint zeros (n : nat) : string :=
  match n with O => "" | S n' => String "0" (zeros n') end.

(** [Number::toString(x)] in radix 10, which is what [`${x}`] and
    [String(x)] give for a number: the shortest digits that identify the
    double, written out in full for a number below 10^21 and with an
    exponent from there on (and below 10^-6). *)
Definition Number_toString (x : Q) : string :=
  if Qeq_bool x 0 then "0"
  else
    let q := if Qle_bool x 0 then (- x)%Q else x in
    let '(s, n) := shortest 17 q (decimal_exponent q) 1 in
    let digits := pretty s in
    let k := Z.of_nat (String.length digits) in
    let exponent (e : Z) :=
      (if (0 <=? e) then "e+" else "e-") +:+ pretty (Z.abs e) in
    (if Qle_bool x 0 then "-" else "") +:+
    (if (k <=? n) && (n <=? 21) then digits +:+ zeros (Z.to_nat (n - k))
     else if (0 <? n) && (n <=? 21) then
       String.substring 0 (Z.to_nat n) digits +:+ "." +:+
       String.substring (Z.to_nat n) (Z.to_nat (k - n)) digits
     else if (-6 <? n) && (n <=? 0) then
       "0." +:+ zeros (Z.to_nat (- n)) +:+ digits
     else if (k =? 1) then digits +:+ exponent (n - 1)
     else String.substring 0 1 digits +:+ "." +:+
          String.substring 1 (Z.to_nat (k - 1)) digits +:+ exponent (n - 1)).

(** ** JSON values *)

(** A value that [JSON.parse] may give for a property that the client does
    not expect to be a string. *)
#[warnings="-register-all"]
Inductive JsonValue :=
  | J_null
  | J_boolean (b : bool)
  | J_number (n : Q)
  | J_string (s : string)
  | J_array (items : list JsonValue)
  | J_object (properties : list (string * JsonValue)).

(** Truthiness: [null], [false], zero and the empty string are falsy, every
    array and object is truthy. *)
Definition truthy_json (v : JsonValue) : bool :=
  match v with
  | J_null => false
  | J_boolean b => b
  | J_number n => negb (Qeq_bool n 0)
  | J_string s => truthy_string s
  | J_array _ | J_object _ => true
  end.

(** [String(v)]. An array is the texts of its items joined by commas, a
    [null] item giving the empty text. An object is [[object Object]],
    unless it has a property of its own named [toString]: that one is not a
    function, the inherited [valueOf] does not give a primitive, and the
    conversion throws a [TypeError] ([None]). *)
Fixpoint String_of_json (v : JsonValue) : option string :=
  match v with
  | J_null => Some "null"
  | J_boolean b => Some (if b then "true" else "false")
  | J_number n => Some (Number_toString n)
  | J_string s => Some s
  | J_array items =>
      (fix join (l : list JsonValue) : option string :=
         match l with
         | [] => Some ""
         | x :: rest =>
             let item := match x with J_null => Some "" | _ => String_of_json x end in
             match rest with
             | [] => item
             | _ => a ← item; b ← join rest; Some (a +:+ "," +:+ b)
             end
         end) items
  | J_object properties =>
      if bool_decide ("toString" ∈ properties.*1) then None
      else Some "[object Object]"
  end.

(** ** page.tsx: the view shell *)

Inductive ViewType := Input | Progress | Results | Error.

Global Instance ViewType_eq_dec : EqDecision ViewType.
Proof. solve_decision. Defined.

(** The three [useState] cells of [Home]. *)
Record Home := mkHome {
  currentView : ViewType;
  taskId : option string;
  error : option string
}.

Global Instance Home_eq_dec : EqDecision Home.
Proof. solve_decision. Defined.

Definition Home_initial : Home :=
  {| currentView := Input; taskId := None; error := None |}.

Definition handleStartGeneration (id : option string) (h : Home) : Home :=
  {| currentView := Progress; taskId := id; error := None |}.

(** [result.task_id] is all that [handleDirectComplete] reads of the result;
    a truthy one replaces the task identifier. *)
Definition handleDirectComplete (result_task_id : option string) (h : Home) : Home :=
  {| currentView := Results;
     taskId := if truthy result_task_id then result_task_id else taskId h;
     error := None |}.

Definition handleError (errorMsg : string) (h : Home) : Home :=
  {| currentView := Error; taskId := taskId h; error := Some errorMsg |}.

Definition handleComplete (h : Home) : Home :=
  {| currentView := Results; taskId := taskId h; error := error h |}.

Definition handleReset (h : Home) : Home :=
  {| currentView := Input; taskId := None; error := None |}.

(** ** IdeaForm.tsx: the submit operation *)

(** The requests [handleSubmit] issues with [fetch]. The body of the POST is
    the object [{ idea, industry }]. *)
Inductive Request :=
  | POST (url idea industry : string)
  | GET (url : string).

(** What [response.json()] settles to, and what [fetch] settles to. A
    rejection carries the [message] of the error it rejects with. *)
Inductive Json (A : Type) :=
  | json_rejects (message : string)
  | json_value (a : A).
Arguments json_rejects {A} message.
Arguments json_value {A} a.

Inductive Fetched (A : Type) :=
  | fetch_rejects (message : string)
  | response (ok : bool) (body : Json A).
Arguments fetch_rejects {A} message.
Arguments response {A} ok body.

(** The properties the client reads from the three response bodies. *)
Record GenerateBody := { task_id : option string; detail : option JsonValue }.
Record StatusBody := { status : option string }.
Record ResultsBody := { result_task_id : option string }.

(** The generation backend, as the client sees it: the answer to the POST of
    an idea and industry, and the answers to the two GETs, by URL. *)
Record Backend := {
  generate_idea : string → string → Fetched GenerateBody;
  api_status : string → Fetched StatusBody;
  api_results : string → Fetched ResultsBody
}.

(** The body of the [try] block: a computation that appends to the list of
    requests issued so far and either throws an error message or returns. *)
Definition Try (A : Type) : Type := list Request → list Request * (string + A).

Global Instance Try_ret : MRet Try := λ A a issued, (issued, inr a).

Global Instance Try_bind : MBind Try := λ A B k m issued,
  match m issued with
  | (issued', inl e) => (issued', inl e)
  | (issued', inr a) => k a issued'
  end.

Definition throw {A} (message : string) : Try A := λ issued, (issued, inl message).

Definition fetch {A} (req : Request) (answer : Fetched A) : Try (bool * Json A) :=
  λ issued,
    (issued ++ [req],
     match answer with
     | fetch_rejects message => inl message
     | response ok body => inr (ok, body)
     end).

Definition json {A} (body : Json A) : Try A :=
  match body with
  | json_rejects message => throw message
  | json_value a => mret a
  end.

(** [new Error(errorData.detail || 'Failed to start pipeline')] and the
    [message] that the [catch] block reads: the text of the detail when it
    is truthy; when its conversion to a string throws, the [catch] block
    gets that [TypeError] instead, with the message that V8 gives it. *)
Definition Error_message (detail : option JsonValue) : string :=
  match detail with
  | Some v =>
      if truthy_json v
      then default "Cannot convert object to primitive value" (String_of_json v)
      else "Failed to start pipeline"
  | None => "Failed to start pipeline"
  end.

(** The callback of [IdeaFormProps] that one submission ends with. *)
Inductive Callback :=
  | onError (message : string)
  | onComplete (result : ResultsBody)
  | onStartGeneration (taskId : option string).

(** Lines 25-27: the idea and the industry parsed from the text. *)
Definition parse_idea (input : string) : string * string :=
  let parts := split " in " input in
  let idea := trim (nth 0 parts "") in
  let industry :=
    if (1 <? length parts)%nat then trim (nth 1 parts "") else "Technology" in
  (idea, industry).

Definition handleSubmit_try (b : Backend) (input : string) : Try Callback :=
  let '(idea, industry) := parse_idea input in
  '(ok, body) ← fetch (POST "/api/generate_idea" idea industry)
                      (generate_idea b idea industry);
  data ←
    (if negb ok return Try GenerateBody then
       let errorData :=
         match body with
         | json_rejects _ => {| task_id := None; detail := None |}
         | json_value a => a
         end in
       throw (Error_message (detail errorData))
     else json body);
  let taskId := task_id data in
  let status_url := "/api/status/" +:+ template_string taskId in
  '(status_ok, status_body) ← fetch (GET status_url) (api_status b status_url);
  statusData ←
    (if negb status_ok return Try StatusBody then throw "Failed to check task status"
     else json status_body);
  if decide (status statusData = Some "completed") then
    let results_url := "/api/results/" +:+ template_string taskId in
    '(results_ok, results_body) ← fetch (GET results_url) (api_results b results_url);
    if (results_ok : bool) return Try Callback then
      results ← json results_body;
      (mret (onComplete results) : Try Callback)
    else throw "Failed to fetch results"
  else (mret (onStartGeneration taskId) : Try Callback).

(** [handleSubmit]: the validation guard, then the [try] block with its
    [catch]. The result is the list of requests issued and the callback
    invoked. *)
Definition handleSubmit (b : Backend) (input : string) : list Request * Callback :=
  if negb (truthy_string (trim input)) then
    ([], onError "Please enter a startup idea")
  else
    match handleSubmit_try b input [] with
    | (issued, inl message) => (issued, onError message)
    | (issued, inr callback) => (issued, callback)
    end.

(** ** ProgressView: labels, updates and local state *)

Definition STAGE_LABELS : gmap string string :=
  list_to_map [
    ("initialization", "Initializing");
    ("ideation", "Ideation");
    ("comparative_insight", "Comparative Insight");
    ("pitch_writing", "Pitch Writing");
    ("prompt_forge", "Prompt Forge");
    ("media_generation", "Media Generation");
    ("qa_validation", "QA Validation");
    ("publishing", "Publishing");
    ("completed", "Completed!")
  ].

(** [STAGE_LABELS] is an object literal, so a property that it does not own
    is looked up on [Object.prototype]. These are the names found there:
    built-in functions, and the accessor [__proto__], whose value is the
    prototype object. *)
Definition Object_prototype : list string :=
  [ "constructor"; "hasOwnProperty"; "isPrototypeOf"; "propertyIsEnumerable";
    "toLocaleString"; "toString"; "valueOf";
    "__defineGetter__"; "__defineSetter__"; "__lookupGetter__";
    "__lookupSetter__"; "__proto__" ].

(** The values that the expression [STAGE_LABELS[key] || key] can have. *)
Inductive JsValue :=
  | js_undefined
  | js_string (s : string)
  | js_inherited (name : string).

Global Instance JsValue_eq_dec : EqDecision JsValue.
Proof. solve_decision. Defined.

(** [o[key]]: the key is converted to a property name, an own property wins,
    then the prototype is consulted. *)
Definition get (o : gmap string string) (key : option string) : JsValue :=
  let name := template_string key in
  match o !! name with
  | Some v => js_string v
  | None =>
      if bool_decide (name ∈ Object_prototype) then js_inherited name
      else js_undefined
  end.

Definition js_truthy (v : JsValue) : bool :=
  match v with
  | js_undefined => false
  | js_string s => truthy_string s
  | js_inherited _ => true
  end.

(** [STAGE_LABELS[stage] || stage], the label shown for a stage key. *)
Definition stage_label (stage : option string) : JsValue :=
  let v := get STAGE_LABELS stage in
  if js_truthy v then v
  else match stage with Some s => js_string s | None => js_undefined end.

(** [`${v}`]. A built-in function prints as its native-code source, the
    prototype object as [[object Object]]. *)
Definition ToString (v : JsValue) : string :=
  match v with
  | js_undefined => "undefined"
  | js_string s => s
  | js_inherited name =>
      if decide (name = "__proto__") then "[object Object]"
      else "function " +:+
           (if decide (name = "constructor") then "Object" else name) +:+
           "() { [native code] }"
  end.

(** [ProgressUpdate], as [JSON.parse] may deliver it: any property may be
    missing. *)
Record ProgressUpdate := {
  data_type : option string;
  data_stage : option string;
  data_progress : option Q;
  data_message : option string
}.

(** What evaluating [JSON.parse(event.data)] gives: a [SyntaxError] for
    text that is not JSON, the value [null], or an object. A JSON number,
    string, boolean or array has none of the four properties and behaves as
    the object without them. *)
Inductive Payload :=
  | SyntaxError (message : string)
  | JSON_null
  | JSON_object (data : ProgressUpdate).

Inductive ReadyState := CONNECTING | OPEN | CLOSED.

Global Instance ReadyState_eq_dec : EqDecision ReadyState.
Proof. solve_decision. Defined.

Record WebSocket := { url : string; readyState : ReadyState }.

(** The four [useState] cells of a mounted [ProgressView] and the socket its
    effect holds ([ws], an index into the connections ever made). *)
Record ProgressView := {
  progress : Q;
  stage : string;
  message : string;
  logs : list string;
  ws : nat
}.

Global Instance Q_eq_dec : EqDecision Q.
Proof. solve_decision. Defined.

Global Instance ProgressView_eq_dec : EqDecision ProgressView.
Proof. solve_decision. Defined.

(** ** ErrorView: the error screen *)

(** [{error || 'An unexpected error occurred'}], the text of the screen. *)
Definition ErrorView_text (error : option string) : string :=
  or_string error "An unexpected error occurred".

(** ** ResultsView.tsx: the results screen *)

(** Of the manifest, the identifier; of the body of the results response,
    which is an object when it parses, the property [manifest]: [None]
    when it is missing or [null]. *)
Record Manifest := { manifest_id : string }.
Record ResultsData := { data_manifest : option Manifest }.

(** The two [useState] cells of [ResultsView]. *)
Record ResultsView := { manifest : option Manifest; loading : bool }.

Definition ResultsView_initial : ResultsView :=
  {| manifest := None; loading := true |}.

Definition setManifest (m : Manifest) (s : ResultsView) : ResultsView :=
  {| manifest := Some m; loading := loading s |}.

Definition setLoading (v : bool) (s : ResultsView) : ResultsView :=
  {| manifest := manifest s; loading := v |}.

(** The [try] block of [fetchResults], lines 31-34. *)
Definition fetchResults_try (taskId : string) (answer : Fetched ResultsData)
    : Try ResultsData :=
  '(ok, body) ← fetch (GET ("/api/results/" +:+ taskId)) answer;
  if negb ok return Try ResultsData then throw "Failed to fetch results"
  else json body.

(** [fetchResults], lines 29-44, run by the effect when the view mounts:
    the requests issued, the console line written (the label of
    [console.log], without the print of the data, or the label of
    [console.error] with the message of what was caught), and the state
    once the [finally] block has run. *)
Definition fetchResults (taskId : string) (answer : Fetched ResultsData)
    (s : ResultsView) : list Request * list string * ResultsView :=
  match fetchResults_try taskId answer [] with
  | (issued, inr data) =>
      (issued, ["Results data:"],
       setLoading false
         match data_manifest data with
         | Some m => setManifest m s
         | None => s
         end)
  | (issued, inl message) =>
      (issued, ["Error fetching results: " +:+ message], setLoading false s)
  end.

(** The three screens of [ResultsView], lines 62-162, and the buttons on
    them: both settled screens have a button bound to [onReset], the one
    with the assets also has the download button. *)
Inductive ResultsScreen :=
  | LoadingResults
  | NoResultsFound
  | ShowsAssets (m : Manifest).

Definition ResultsView_render (s : ResultsView) : ResultsScreen :=
  if loading s then LoadingResults
  else match manifest s with
       | None => NoResultsFound
       | Some m => ShowsAssets m
       end.

Definition offers_reset (screen : ResultsScreen) : bool :=
  match screen with LoadingResults => false | _ => true end.

(** [downloadManifest], lines 49-60: the name of the file that a click on
    the download button saves, if it saves one. *)
Definition downloadManifest (s : ResultsView) : option string :=
  m ← manifest s; Some ("manifest_" +:+ manifest_id m +:+ ".json").

(** ** The client as a whole *)

Record World := {
  home : Home;
  view : option ProgressView;      (* the mounted ProgressView, if any *)
  sockets : list WebSocket;        (* every WebSocket constructed so far *)
  timers : list N;                 (* due times of pending setTimeout(onComplete) *)
  now : N;                         (* the clock, in milliseconds *)
  console : list string;           (* console.log / console.error lines *)
  network : list Request;          (* requests issued with fetch *)
  crashed : bool                   (* a render threw: React unmounted the tree *)
}.

Definition World_initial : World :=
  {| home := Home_initial; view := None; sockets := []; timers := [];
     now := 0%N; console := []; network := []; crashed := false |}.

Definition set_home (f : Home → Home) (w : World) : World :=
  {| home := f (home w); view := view w; sockets := sockets w;
     timers := timers w; now := now w; console := console w;
     network := network w; crashed := crashed w |}.

Definition set_view (f : ProgressView → ProgressView) (w : World) : World :=
  {| home := home w; view := f <$> view w; sockets := sockets w;
     timers := timers w; now := now w; console := console w;
     network := network w; crashed := crashed w |}.

Definition set_sockets (f : list WebSocket → list WebSocket) (w : World) : World :=
  {| home := home w; view := view w; sockets := f (sockets w);
     timers := timers w; now := now w; console := console w;
     network := network w; crashed := crashed w |}.

Definition set_timers (f : list N → list N) (w : World) : World :=
  {| home := home w; view := view w; sockets := sockets w;
     timers := f (timers w); now := now w; console := console w;
     network := network w; crashed := crashed w |}.

Definition console_write (line : string) (w : World) : World :=
  {| home := home w; view := view w; sockets := sockets w;
     timers := timers w; now := now w; console := console w ++ [line];
     network := network w; crashed := crashed w |}.

Definition setProgress (v : Q) (p : ProgressView) : ProgressView :=
  {| progress := v; stage := stage p; message := message p;
     logs := logs p; ws := ws p |}.

Definition setStage (v : string) (p : ProgressView) : ProgressView :=
  {| progress := progress p; stage := v; message := message p;
     logs := logs p; ws := ws p |}.

Definition setMessage (v : string) (p : ProgressView) : ProgressView :=
  {| progress := progress p; stage := stage p; message := v;
     logs := logs p; ws := ws p |}.

Definition setLogs (f : list string → list string) (p : ProgressView) : ProgressView :=
  {| progress := progress p; stage := stage p; message := message p;
     logs := f (logs p); ws := ws p |}.

Definition set_ws (i : nat) (p : ProgressView) : ProgressView :=
  {| progress := progress p; stage := stage p; message := message p;
     logs := logs p; ws := i |}.

Definition set_readyState (s : ReadyState) (c : WebSocket) : WebSocket :=
  {| url := url c; readyState := s |}.

(** [ws.close()] on the socket with index [i]. *)
Definition close (i : nat) (l : list WebSocket) : list WebSocket :=
  alter (set_readyState CLOSED) i l.

Definition readyState_of (w : World) (i : nat) : option ReadyState :=
  readyState <$> sockets w !! i.

(** What the view shows: the percentage as text, [Math.round(progress)]
    (line 92), the width of the bar, [progress] itself (line 97), and the
    label of the stage (line 103). *)
Definition displayed_percentage (p : ProgressView) : Z := Math_round (progress p).
Definition bar_width (p : ProgressView) : Q := progress p.
Definition displayed_stage (p : ProgressView) : JsValue := stage_label (Some (stage p)).

(** The label of the stage is a child of a [<p>] element (line 103). React
    renders a string, renders nothing for a function, and throws for any
    other object: of the values that the label can have, that is the
    prototype object, which the stage ["__proto__"] gives. *)
Definition render_throws (p : ProgressView) : bool :=
  match displayed_stage p with
  | js_inherited name => bool_decide (name = "__proto__")
  | _ => false
  end.

(** The events of the browser's event loop that reach the client. *)
Inductive Event :=
  | Elapse (ms : N)                         (* time passes; due timers fire *)
  | Submit (input : string) (b : Backend)   (* the form of IdeaForm is submitted *)
  | ws_open                                 (* the socket's open event *)
  | ws_message (payload : Payload)          (* a frame arrives on the socket *)
  | ws_error                                (* the socket's error event *)
  | ws_close                                (* the server or the network closes the socket *)
  | ClickReset.                             (* the reset button of ResultsView or ErrorView *)

Section Browser.

(** [new Date(t).toLocaleTimeString()] depends on the locale and the time
    zone, and [window.location.protocol] on how the page was served. *)
Variable toLocaleTimeString : N → string.
Variable location_protocol : string.

Definition wsUrl (taskId : option string) : string :=
  (if decide (location_protocol = "https:") then "wss:" else "ws:")
  +:+ "//localhost:8000/ws/progress/" +:+ template_string taskId.

(** [addLog], lines 80-83. *)
Definition log_entry (time : N) (text : string) : string :=
  "[" +:+ toLocaleTimeString time +:+ "] " +:+ text.

Definition addLog (text : string) (w : World) : World :=
  set_view (setLogs (λ prev, prev ++ [log_entry (now w) text])) w.

(** The line that a [progress] or [status] update adds to the log. *)
Definition progress_line (data : ProgressUpdate) : string :=
  ToString (stage_label (data_stage data)) +:+ ": " +:+
  Number_toString (inject_Z (Math_round (or_number (data_progress data) 0)))
  +:+ "%".

(** [setTimeout(onComplete, 1500)]. *)
Definition setTimeout_onComplete (w : World) : World :=
  set_timers (λ pending, pending ++ [(now w + 1500)%N]) w.

(** The body of [ws.onmessage], lines 47-68. *)
Definition onmessage (payload : Payload) (w : World) : World :=
  match payload with
  | SyntaxError m =>
      console_write ("Failed to parse WebSocket message: SyntaxError: " +:+ m) w
  | JSON_null =>
      console_write
        "Failed to parse WebSocket message: TypeError: Cannot read properties of null (reading 'type')"
        w
  | JSON_object data =>
      if bool_decide (data_type data = Some "progress")
         || bool_decide (data_type data = Some "status") then
        addLog (progress_line data)
          (set_view (setMessage (or_string (data_message data) "Processing..."))
          (set_view (setStage (or_string (data_stage data) "unknown"))
          (set_view (setProgress (or_number (data_progress data) 0)) w)))
      else if bool_decide (data_type data = Some "final") then
        setTimeout_onComplete
          (addLog "Pipeline complete!"
          (set_view (setMessage "Your pitch deck has been successfully generated!")
          (set_view (setStage "completed")
          (set_view (setProgress 100) w))))
      else if bool_decide (data_type data = Some "error") then
        set_home (handleError (or_string (data_message data) "An error occurred")) w
      else w
  end.

Definition onopen (w : World) : World :=
  addLog "Connected to stream" (console_write "WebSocket connected" w).

(** The body of [ws.onerror], lines 70-73; of the console line, the label
    is kept and the print of the event left out. *)
Definition onerror (w : World) : World :=
  set_home (handleError "Connection error. Please refresh and try again.")
    (console_write "WebSocket error:" w).

(** [Home] renders [ProgressView] when [currentView === 'progress' && taskId]. *)
Definition renders_ProgressView (h : Home) : bool :=
  bool_decide (currentView h = Progress) && truthy (taskId h).

Definition renders_ResultsView (h : Home) : bool :=
  bool_decide (currentView h = Results) && truthy (taskId h).

Definition renders_ErrorView (h : Home) : bool :=
  bool_decide (currentView h = Error).

Definition renders_IdeaForm (h : Home) : bool :=
  bool_decide (currentView h = Input).

(** [new WebSocket(wsUrl)] of the effect, lines 37-40. *)
Definition open_socket (w : World) : World :=
  set_sockets
    (λ l, l ++ [{| url := wsUrl (taskId (home w)); readyState := CONNECTING |}]) w.

Definition ProgressView_initial (socket : nat) : ProgressView :=
  {| progress := 0; stage := "initialization";
     message := "Starting pipeline..."; logs := ["Pipeline started..."];
     ws := socket |}.

Definition with_view (v : option ProgressView) (w : World) : World :=
  {| home := home w; view := v; sockets := sockets w; timers := timers w;
     now := now w; console := console w; network := network w; crashed := crashed w |}.

(** React commits the render that follows a handler. [before] is the
    state of [Home] when the handler started; when the handler left it as
    it was, [Home] does not render again and nothing below it changes.
    Otherwise:
    - [ProgressView] leaves the tree: the cleanup of its effect closes the
      socket (lines 75-77) and its state is dropped.
    - [ProgressView] enters the tree: its state is initial and the effect
      opens a socket.
    - [ProgressView] stays in the tree: [onComplete] and [onError] are new
      closures, so the effect, which depends on them (line 78), is cleaned
      up and run again; the state is kept. *)
Definition commit (before : Home) (w : World) : World :=
  if decide (home w = before) then w
  else
    match view w, renders_ProgressView (home w) with
    | Some p, false => with_view None (set_sockets (close (ws p)) w)
    | None, true =>
        with_view (Some (ProgressView_initial (length (sockets w)))) (open_socket w)
    | Some p, true =>
        with_view (Some (set_ws (length (sockets w)) p))
          (open_socket (set_sockets (close (ws p)) w))
    | None, false => w
    end.

(** A render of [ProgressView] that throws is caught by no component of
    the client: React unmounts the whole tree. The cleanup of the effect
    closes the socket; [Home] and its state are gone, and [home] keeps what
    the state was. *)
Definition unmount_tree (p : ProgressView) (w : World) : World :=
  {| home := home w; view := None; sockets := close (ws p) (sockets w);
     timers := timers w; now := now w; console := console w;
     network := network w; crashed := true |}.

(** [ProgressView] renders again when what it holds differs from [before]:
    a handler has set its state, or [Home] has rendered again. *)
Definition render (before : option ProgressView) (w : World) : World :=
  match view w with
  | Some p =>
      if decide (view w = before) then w
      else if render_throws p then unmount_tree p w else w
  | None => w
  end.

(** A handler followed by the commit of what it changed and the render
    of [ProgressView]. *)
Definition react (handler : World → World) (w : World) : World :=
  render (view w) (commit (home w) (handler w)).

(** One pending timer fires: [onComplete], that is [handleComplete]. Once
    the tree is unmounted the call sets no state. *)
Definition timer_fires (w : World) : World :=
  if crashed w then w else react (set_home handleComplete) w.

Definition with_now (t : N) (w : World) : World :=
  {| home := home w; view := view w; sockets := sockets w; timers := timers w;
     now := t; console := console w; network := network w; crashed := crashed w |}.

(** [ms] milliseconds pass: the timers due by then fire, in the order they
    were set; the others stay pending. *)
Definition elapse (ms : N) (w : World) : World :=
  let t := (now w + ms)%N in
  let due := filter (λ d, (d ≤ t)%N) (timers w) in
  let w' := with_now t (set_timers (filter (λ d, (t < d)%N)) w) in
  foldr (λ _, timer_fires) w' due.

Definition run_callback (c : Callback) : Home → Home :=
  match c with
  | onError m => handleError m
  | onComplete result => handleDirectComplete (result_task_id result)
  | onStartGeneration id => handleStartGeneration id
  end.

Definition with_network (l : list Request) (w : World) : World :=
  {| home := home w; view := view w; sockets := sockets w; timers := timers w;
     now := now w; console := console w; network := l; crashed := crashed w |}.

(** The submit operation: [handleSubmit] and the callback it ends with. *)
Definition submit (input : string) (b : Backend) : World → World :=
  react (λ w,
    let '(issued, c) := handleSubmit b input in
    set_home (run_callback c) (with_network (network w ++ issued) w)).

(** The reset operation: [handleReset]. *)
Definition reset : World → World := react (set_home handleReset).

(** The socket of the mounted [ProgressView] and its state. *)
Definition stream (w : World) : option ReadyState :=
  p ← view w; readyState_of w (ws p).

(** One event. An event that no mounted component listens to changes
    nothing: the form exists only in the input view, the reset buttons only
    in [ResultsView] and [ErrorView], and a socket delivers [open] once,
    frames only while open, and nothing after it was closed. The client
    sets no [onclose] handler: when the server or the network closes the
    socket, nothing but the state of the socket changes. *)
Definition step (w : World) (e : Event) : World :=
  match e with
  | Elapse ms => elapse ms w
  | Submit input b =>
      if renders_IdeaForm (home w) then submit input b w else w
  | ws_open =>
      match view w, stream w with
      | Some p, Some CONNECTING =>
          react onopen (set_sockets (alter (set_readyState OPEN) (ws p)) w)
      | _, _ => w
      end
  | ws_message payload =>
      match stream w with
      | Some OPEN => react (onmessage payload) w
      | _ => w
      end
  | ws_error =>
      match view w, stream w with
      | Some p, Some (CONNECTING | OPEN) =>
          react onerror (set_sockets (close (ws p)) w)
      | _, _ => w
      end
  | ws_close =>
      match view w, stream w with
      | Some p, Some (CONNECTING | OPEN) => set_sockets (close (ws p)) w
      | _, _ => w
      end
  | ClickReset =>
      if renders_ResultsView (home w) || renders_ErrorView (home w)
      then reset w else w
  end.

Definition run (w : World) (es : list Event) : World := foldl step w es.

(** The sequence of views that a run goes through, the first included. *)
Fixpoint views (w : World) (es : list Event) : list ViewType :=
  match es with
  | [] => [currentView (home w)]
  | e :: es' => currentView (home w) :: views (step w e) es'
  end.

(** How the log of the view may differ between two moments [v] and [v']:
    a view that was just mounted has the initial log, a view that stayed
    has its former log with entries stamped [t] added at the end. *)
Definition log_grows (t : N) (v v' : option ProgressView) : Prop :=
  match v, v' with
  | None, Some p' => logs p' = ["Pipeline started..."]
  | Some p, Some p' =>
      ∃ added, logs p' = logs p ++ added
               ∧ Forall (λ line, ∃ text, line = log_entry t text) added
  | _, None => True
  end.

(** What a handler does to the view before the commit: it never mounts or
    unmounts it, and only adds to its log. *)
Definition log_kept (t : N) (v v' : option ProgressView) : Prop :=
  match v, v' with
  | None, None => True
  | Some p, Some p' =>
      ∃ added, logs p' = logs p ++ added
               ∧ Forall (λ line, ∃ text, line = log_entry t text) added
  | _, _ => False
  end.

(** The log lines that a sequence of updates adds, each stamped with the
    time of its arrival; [t] is the time before the first. *)
Fixpoint stamped (t : N) (frames : list (N * ProgressUpdate)) : list string :=
  match frames with
  | [] => []
  | (ms, data) :: rest =>
      log_entry (t + ms) (progress_line data) :: stamped (t + ms) rest
  end.

End Browser.

(** The number of places where a sequence of views goes from [a] to [b]. *)
Fixpoint transitions (a b : ViewType) (l : list ViewType) : nat :=
  match l with
  | x :: (y :: _) as l' =>
      (if bool_decide (x = a ∧ y = b) then 1 else 0)%nat + transitions a b l'
  | _ => 0%nat
  end.

(** The connections that are not closed. *)
Definition open_connections (w : World) : list WebSocket :=
  filter (λ c, readyState c ≠ CLOSED) (sockets w).

(** ** Vocabulary of the statements *)

(** The text is empty or has only whitespace in it. *)
Fixpoint whitespace_only (s : string) : bool :=
  match s with
  | EmptyString => true
  | String c s' => isWhiteSpace c && whitespace_only s'
  end.

Fixpoint drop_string (n : nat) (s : string) : string :=
  match n, s with
  | S k, String _ s' => drop_string k s'
  | _, _ => s
  end.

Fixpoint take_string (n : nat) (s : string) : string :=
  match n, s with
  | S k, String c s' => String c (take_string k s')
  | _, _ => EmptyString
  end.

(** [sep] occurs in [s]; and [s] cut at the first occurrence of [sep], into
    what precedes it and what follows it. *)
Definition occurs (sep s : string) : Prop := ∃ a b, s = a +:+ sep +:+ b.

Definition first_cut (sep s a b : string) : Prop :=
  s = a +:+ sep +:+ b
  ∧ ∀ a' b', s = a' +:+ sep +:+ b' → (String.length a ≤ String.length a')%nat.

(** The parse of a submitted text in the words of the specification: the
    idea is what precedes the first [" in "], the industry is the part that
    follows it, up to the next [" in "] if there is one, and ["Technology"]
    when the text has no [" in "]; both are trimmed. *)
Definition spec_parse (input : string) : string * string :=
  match indexOf " in " input with
  | None => (trim input, "Technology")
  | Some i =>
      let after := drop_string (i + 4) input in
      let part :=
        match indexOf " in " after with
        | None => after
        | Some j => take_string j after
        end in
      (trim (take_string i input), trim part)
  end.

(** The kind of a frame that parsed to an object. *)
Definition kind (payload : Payload) : option string :=
  match payload with
  | JSON_object data => data_type data
  | _ => None
  end.

Definition is_update (data : ProgressUpdate) : Prop :=
  data_type data = Some "progress" ∨ data_type data = Some "status".

(** The socket of the mounted view is open: frames are being delivered. *)
Definition streaming (w : World) : Prop := stream w = Some OPEN.

(** Events of the stream, as opposed to timers and to the user's actions. *)
Definition stream_event (e : Event) : Prop :=
  match e with
  | ws_open | ws_message _ | ws_error | ws_close => True
  | _ => False
  end.

(** An update with the one stage whose label React cannot render. *)
Definition breaks_render (payload : Payload) : Prop :=
  match payload with
  | JSON_object data => is_update data ∧ data_stage data = Some "__proto__"
  | _ => False
  end.

(** Time passing, the server closing the connection, and frames other than
    [error] ones and than updates that break the render. *)
Definition quiet (e : Event) : Prop :=
  match e with
  | Elapse _ | ws_close => True
  | ws_message payload => kind payload ≠ Some "error" ∧ ¬ breaks_render payload
  | _ => False
  end.

(** The time that passes in a sequence of events. *)
Definition elapsed (es : list Event) : N :=
  foldr (λ e acc, match e with Elapse ms => (ms + acc)%N | _ => acc end) 0%N es.

(** Frames with the delay that precedes each, as the events of a run. *)
Definition arrivals (frames : list (N * ProgressUpdate)) : list Event :=
  flat_map (λ '(ms, data), [Elapse ms; ws_message (JSON_object data)]) frames.

Definition total_delay (frames : list (N * ProgressUpdate)) : N :=
  foldr (λ '(ms, _) acc, (ms + acc)%N) 0%N frames.

(** The log on screen; there is none when [ProgressView] is not mounted. *)
Definition displayed_log (w : World) : list string :=
  match view w with Some p => logs p | None => [] end.

(** What holds of every world that a run from [World_initial] reaches.
    First, about the connections and the timers:
    - the socket of the mounted view is one of the sockets made;
    - every socket that is not closed is the one of the mounted view;
    - every pending timer is due in the future. *)
Record wf_io (w : World) : Prop := {
  wf_ws : ∀ p, view w = Some p → (ws p < length (sockets w))%nat;
  wf_sockets : ∀ i c, sockets w !! i = Some c → readyState c ≠ CLOSED →
               ∃ p, view w = Some p ∧ ws p = i;
  wf_timers : ∀ d, d ∈ timers w → (now w < d)%N
}.

(** Second, [ProgressView] is mounted exactly when the tree is mounted and
    [Home] renders it. *)
Definition mounted_ok (w : World) : Prop :=
  is_Some (view w) ↔ crashed w = false ∧ renders_ProgressView (home w) = true.

(** Third, what is mounted has rendered without throwing; and the tree was
    unmounted, if it was, while [Home] rendered the progress view. *)
Definition rendered (w : World) : Prop :=
  (∀ p, view w = Some p → render_throws p = false)
  ∧ (crashed w = true → renders_ProgressView (home w) = true).

Definition wf (w : World) : Prop := mounted_ok w ∧ wf_io w ∧ rendered w.

(** The client has shown the results and unmounted the progress view. *)
Definition completed (w : World) : Prop :=
  currentView (home w) = Results ∧ view w = None.

(** The text has no whitespace at its start. *)
Definition starts_clean (s : string) : bool :=
  match s with
  | String c _ => negb (isWhiteSpace c)
  | EmptyString => true
  end.

(** What holds of [Home] wherever the client gets: the input view has no
    task and no error, the progress view no error, and the error view has
    an error message. *)
Definition home_ok (h : Home) : Prop :=
  match currentView h with
  | Input => taskId h = None ∧ error h = None
  | Progress => error h = None
  | Results => True
  | Error => is_Some (error h)
  end.

(** The URL of the socket of the mounted view is the one of the current
    task. *)
Definition live (location_protocol : string) (w : World) : Prop :=
  ∀ p, view w = Some p →
    ∃ c, sockets w !! ws p = Some c
         ∧ url c = wsUrl location_protocol (taskId (home w)).

(** The stage and the message of a progress view are not empty, and its log
    begins with the line it is mounted with. *)
Definition view_ok (p : ProgressView) : Prop :=
  stage p ≠ "" ∧ message p ≠ "" ∧ head (logs p) = Some "Pipeline started...".

(** A connection at a later moment: the same URL, and closed if it was. *)
Definition socket_kept (c c' : WebSocket) : Prop :=
  url c' = url c ∧ (readyState c = CLOSED → readyState c' = CLOSED).

(** The kinds of frame that [onmessage] acts on. *)
Definition handled_kinds : list (option string) :=
  [Some "progress"; Some "status"; Some "final"; Some "error"].

(** Connections at a later moment: each is still there, and kept. *)
Definition sockets_kept (l l' : list WebSocket) : Prop :=
  ∀ i c, l !! i = Some c → ∃ c', l' !! i = Some c' ∧ socket_kept c c'.

(** ** Sample data for the examples *)

(** A clock that prints the milliseconds themselves. *)
Definition clock_ms (t : N) : string := pretty t.

(** A backend that accepts every job as task ["t1"], reports [job_status]
    for it, and answers the results request with success or not. *)
Definition sample_backend (id job_status : string) (results_ok : bool) : Backend :=
  {| generate_idea := λ _ _,
       response true (json_value {| task_id := Some id; detail := None |});
     api_status := λ _, response true (json_value {| status := Some job_status |});
     api_results := λ _,
       response results_ok (json_value {| result_task_id := Some id |}) |}.

Definition update (type : string) (stage : option string) (progress : option Q)
    (message : option string) : ProgressUpdate :=
  {| data_type := Some type; data_stage := stage; data_progress := progress;
     data_message := message |}.

(** The events up to an open stream for task ["t1"]. *)
Definition sample_prior : list Event :=
  [Submit "AI scheduling tool in healthcare" (sample_backend "t1" "running" true);
   ws_open].

Definition sample_streaming : World :=
  run clock_ms "https:" World_initial sample_prior.

Definition sample_final : ProgressUpdate :=
  update "final" (Some "completed") (Some 100%Q) (Some "Done").

Definition sample_error (message : option string) : ProgressUpdate :=
  update "error" (Some "ideation") (Some 10%Q) message.

Definition sample_publishing : ProgressUpdate :=
  update "progress" (Some "publishing") (Some 90%Q) (Some "Publishing...").

Definition sample_status : ProgressUpdate :=
  update "status" (Some "ideation") (Some 10%Q) (Some "Expanding idea...").

(** The three updates of the specification's scenario, 10 and 20 ms apart. *)
Definition sample_frames : list (N * ProgressUpdate) :=
  [ (0%N, update "progress" (Some "ideation") (Some 0%Q) (Some "Expanding idea..."));
    (10%N, update "progress" (Some "pitch_writing") (Some 45%Q) (Some "Writing the pitch..."));
    (20%N, sample_publishing) ].

(** The view of [sample_streaming]: mounted, connected, nothing received. *)
Definition sample_view : ProgressView :=
  {| progress := 0; stage := "initialization"; message := "Starting pipeline...";
     logs := ["Pipeline started..."; "[0] Connected to stream"]; ws := 0 |}.

(** A backend that refuses every job, with a [detail]. *)
Definition sample_refusing (reason : option JsonValue) : Backend :=
  {| generate_idea := λ _ _,
       response false (json_value {| task_id := None; detail := reason |});
     api_status := λ _, fetch_rejects "Failed to fetch";
     api_results := λ _, fetch_rejects "Failed to fetch" |}.

(** A frame of a kind that the client does not know. *)
Definition sample_heartbeat : ProgressUpdate :=
  update "heartbeat" None None None.

(** The connection of the sample stream. *)
Definition sample_socket : WebSocket :=
  {| url := "wss://localhost:8000/ws/progress/t1"; readyState := OPEN |}.

(** An update that carries nothing but its type. *)
Definition sample_bare : ProgressUpdate := update "progress" None None None.

(** An update whose stage is the name of the accessor of the prototype. *)
Definition sample_proto : ProgressUpdate :=
  update "progress" (Some "__proto__") (Some 10%Q) (Some "Working...").

(** The [detail] of a validation error, as FastAPI reports it: a list of
    objects. *)
Definition sample_validation_detail : JsonValue :=
  J_array
    [J_object
       [("loc", J_array [J_string "body"; J_string "idea"]);
        ("msg", J_string "field required");
        ("type", J_string "value_error.missing")]].

(** * Properties *)
(** ** Strings *)

Lemma trimStart_whitespace_only s : whitespace_only s = true → trimStart s = "".
Proof.
  induction s as [|c s IH]; simpl; [done|].
  intros [Hc Hs]%andb_prop. rewrite Hc. auto.
Qed.

Lemma trim_whitespace_only s : whitespace_only s = true → trim s = "".
Proof. intros H. unfold trim. by rewrite (trimStart_whitespace_only s H). Qed.

Lemma append_cons (x : ascii) (s t : string) :
  String x s +:+ t = String x (s +:+ t).
Proof. reflexivity. Qed.

Lemma rev_app_append (a b c : string) :
  String.rev_app a b +:+ c = String.rev_app a (b +:+ c).
Proof. revert b. induction a as [|x a IH]; intros b; simpl; [done|]. by rewrite IH. Qed.

Lemma rev_cons_append (x : ascii) (cur s : string) :
  String.rev (String x cur) +:+ s = String.rev cur +:+ String x s.
Proof. unfold String.rev. simpl. by rewrite !rev_app_append. Qed.

Lemma append_empty_r (s : string) : s +:+ "" = s.
Proof. induction s as [|c s IH]; [done|]. by rewrite append_cons, IH. Qed.

(** Passing over the rest of a separator is dropping that many characters. *)
Lemma split_go_skip sep k cur s :
  split_go sep k cur s = split_go sep 0 cur (drop_string k s).
Proof.
  revert k. induction s as [|c s IH]; intros [|k]; simpl; auto.
Qed.

(** [split] cuts at the first occurrence that [indexOf] finds and goes on
    after it. *)
Lemma split_go_indexOf sep cur s :
  sep ≠ "" →
  split_go sep 0 cur s =
    match indexOf sep s with
    | None => [String.rev cur +:+ s]
    | Some i =>
        (String.rev cur +:+ take_string i s)
        :: split_go sep 0 "" (drop_string (i + String.length sep) s)
    end.
Proof.
  intros Hsep. unfold indexOf. revert cur.
  induction s as [|c s IH]; intros cur.
  - destruct sep; [done|]. simpl. by rewrite append_empty_r.
  - cbn [split_go String.index].
    destruct (String.prefix sep (String c s)) eqn:Hp.
    + destruct sep as [|x sep]; [done|].
      cbn [take_string Nat.add String.length drop_string].
      replace (S (String.length sep) - 1)%nat with (String.length sep) by lia.
      rewrite append_empty_r. f_equal. apply split_go_skip.
    + rewrite IH. destruct (String.index 0 sep s) as [i|].
      * cbn [take_string Nat.add drop_string]. by rewrite rev_cons_append.
      * by rewrite rev_cons_append.
Qed.

Lemma split_indexOf sep s :
  sep ≠ "" →
  split sep s =
    match indexOf sep s with
    | None => [s]
    | Some i => take_string i s :: split sep (drop_string (i + String.length sep) s)
    end.
Proof. intros H. unfold split. by rewrite split_go_indexOf. Qed.

(** The code's parse is the one the specification words. *)
Lemma parse_idea_spec input : parse_idea input = spec_parse input.
Proof.
  unfold parse_idea, spec_parse.
  rewrite (split_indexOf " in " input) by done.
  destruct (indexOf " in " input) as [i|]; [|done].
  cbn [nth length]. rewrite (split_indexOf " in " (drop_string _ _)) by done.
  change (String.length " in ") with 4%nat.
  by destruct (indexOf " in " (drop_string (i + 4) input)).
Qed.

(** *** What [indexOf] finds *)

Lemma prefix_append sep s :
  String.prefix sep s = true ↔ ∃ b, s = sep +:+ b.
Proof.
  revert s. induction sep as [|x sep IH]; intros s.
  - split; [intros _; by exists s|intros _; by destruct s].
  - destruct s as [|c s]; simpl.
    + split; [done|]. by intros [b Hb].
    + destruct (ascii_dec x c) as [->|Hne].
      * rewrite IH. split; intros [b Hb]; exists b.
        -- by rewrite append_cons, <- Hb.
        -- rewrite append_cons in Hb. by simplify_eq.
      * split; [done|]. intros [b Hb]. rewrite append_cons in Hb. by simplify_eq.
Qed.

Lemma drop_string_append a b : drop_string (String.length a) (a +:+ b) = b.
Proof. induction a as [|x a IH]; [by destruct b|]. by rewrite append_cons. Qed.

Lemma drop_string_add n m s :
  drop_string (n + m) s = drop_string m (drop_string n s).
Proof.
  revert s. induction n as [|n IH]; intros s; [done|].
  destruct s as [|c s]; simpl; [by destruct m|]. apply IH.
Qed.

Lemma take_string_append a b : take_string (String.length a) (a +:+ b) = a.
Proof.
  induction a as [|x a IH]; [by destruct b|].
  rewrite append_cons. simpl. by rewrite IH.
Qed.

Lemma length_append a b :
  String.length (a +:+ b) = (String.length a + String.length b)%nat.
Proof. induction a as [|x a IH]; [done|]. rewrite append_cons. simpl. by rewrite IH. Qed.

(** [indexOf] finds an occurrence, and no occurrence starts before it. *)
Lemma indexOf_Some sep s i :
  sep ≠ "" → indexOf sep s = Some i →
  first_cut sep s (take_string i s) (drop_string (i + String.length sep) s)
  ∧ String.length (take_string i s) = i.
Proof.
  intros Hsep. unfold indexOf, first_cut. revert i.
  induction s as [|c s IH]; intros i.
  - destruct sep; [done|]. simpl. done.
  - cbn [String.index]. destruct (String.prefix sep (String c s)) eqn:Hp.
    + intros [= <-]. apply prefix_append in Hp as [b Hb]. rewrite Hb.
      change (0 + String.length sep)%nat with (String.length sep).
      rewrite drop_string_append.
      assert (take_string 0 (sep +:+ b) = "") as -> by by destruct (sep +:+ b).
      split; [split; [done|]|done]. intros; simpl; lia.
    + destruct (String.index 0 sep s) as [j|] eqn:Hj; [|done].
      intros [= <-]. destruct (IH j eq_refl) as [[Heq Hfirst] Hlen].
      cbn [take_string Nat.add drop_string].
      split; [split|].
      * by rewrite append_cons, <- Heq.
      * intros [|x a'] b' Hs.
        -- exfalso. assert (String.prefix sep (String c s) = true); [|congruence].
           apply prefix_append. by exists b'.
        -- rewrite append_cons in Hs. simplify_eq. simpl.
           specialize (Hfirst a' b' eq_refl). rewrite Hlen in Hfirst. lia.
      * simpl. by rewrite Hlen.
Qed.

Lemma indexOf_None sep s :
  sep ≠ "" → indexOf sep s = None → ¬ occurs sep s.
Proof.
  intros Hsep. unfold indexOf, occurs.
  induction s as [|c s IH].
  - intros _ (a & b & Heq). apply (f_equal String.length) in Heq.
    rewrite !length_append in Heq. destruct sep; [done|]. simpl in Heq. lia.
  - cbn [String.index]. destruct (String.prefix sep (String c s)) eqn:Hp; [done|].
    destruct (String.index 0 sep s) as [j|] eqn:Hj; [done|].
    intros _ ([|x a] & b & Heq).
    + assert (String.prefix sep (String c s) = true); [|congruence].
      apply prefix_append. by exists b.
    + rewrite append_cons in Heq. simplify_eq. apply IH; eauto.
Qed.

(** The first occurrence is where [indexOf] says. *)
Lemma first_cut_indexOf sep s a b :
  sep ≠ "" → first_cut sep s a b →
  indexOf sep s = Some (String.length a)
  ∧ take_string (String.length a) s = a
  ∧ drop_string (String.length a + String.length sep) s = b.
Proof.
  intros Hsep [Heq Hfirst].
  destruct (indexOf sep s) as [i|] eqn:Hi.
  - destruct (indexOf_Some sep s i Hsep Hi) as [[Heq' Hfirst'] Hlen].
    assert (i = String.length a) as ->.
    { specialize (Hfirst _ _ Heq'). specialize (Hfirst' _ _ Heq).
      rewrite Hlen in *. lia. }
    split; [done|]. rewrite Heq at 1 2.
    by rewrite take_string_append, drop_string_add, !drop_string_append.
  - exfalso. apply (indexOf_None sep s Hsep Hi). by exists a, b.
Qed.

(** ** The submit operation *)

(** The first request of a submission that passes validation is the POST of
    the parsed idea and industry. *)
Lemma handleSubmit_try_first b input :
  ∃ more result,
    handleSubmit_try b input [] =
      (POST "/api/generate_idea" (parse_idea input).1 (parse_idea input).2 :: more,
       result).
Proof.
  unfold handleSubmit_try. destruct (parse_idea input) as [idea industry].
  unfold mbind, Try_bind, fetch, json, throw, mret, Try_ret. simpl.
  destruct (generate_idea b idea industry) as [m|[] [m|data]]; simpl; eauto.
  destruct (api_status b _) as [m'|[] [m'|sd]]; simpl; eauto.
  destruct (decide _); simpl; eauto.
  destruct (api_results b _) as [m''|[] [m''|r]]; simpl; eauto.
Qed.

Lemma handleSubmit_blank b input :
  whitespace_only input = true →
  handleSubmit b input = ([], onError "Please enter a startup idea").
Proof. intros H. unfold handleSubmit. by rewrite (trim_whitespace_only _ H). Qed.

(** What a submission does when every request succeeds. *)
Lemma handleSubmit_accepted b input data sd :
  truthy_string (trim input) = true →
  generate_idea b (parse_idea input).1 (parse_idea input).2
    = response true (json_value data) →
  api_status b ("/api/status/" +:+ template_string (task_id data))
    = response true (json_value sd) →
  let post := POST "/api/generate_idea" (parse_idea input).1 (parse_idea input).2 in
  let get_status := GET ("/api/status/" +:+ template_string (task_id data)) in
  let results_url := "/api/results/" +:+ template_string (task_id data) in
  (status sd ≠ Some "completed" →
     handleSubmit b input = ([post; get_status], onStartGeneration (task_id data)))
  ∧ (status sd = Some "completed" →
       (∀ r, api_results b results_url = response true (json_value r) →
          handleSubmit b input = ([post; get_status; GET results_url], onComplete r))
     ∧ (∀ body, api_results b results_url = response false body →
          handleSubmit b input =
            ([post; get_status; GET results_url], onError "Failed to fetch results"))).
Proof.
  intros Hin Hgen Hst. unfold handleSubmit, handleSubmit_try. rewrite Hin.
  destruct (parse_idea input) as [idea industry]. simpl in *.
  unfold mbind, Try_bind, fetch, json, throw, mret, Try_ret. simpl.
  rewrite Hgen. simpl. rewrite Hst. simpl.
  split; [intros Hne|intros Heq; split; [intros r Hr|intros body Hr]].
  - by rewrite decide_False.
  - rewrite decide_True by done. simpl. by rewrite Hr.
  - rewrite decide_True by done. simpl. by rewrite Hr.
Qed.


(** *** What [trim] removes *)

Lemma append_assoc (a b c : string) : (a +:+ b) +:+ c = a +:+ (b +:+ c).
Proof. induction a as [|x a IH]; [done|]. by rewrite !append_cons, IH. Qed.

Lemma rev_app_rev (a b : string) : String.rev_app a b = String.rev a +:+ b.
Proof. unfold String.rev. by rewrite rev_app_append. Qed.

Lemma rev_append (a b : string) :
  String.rev (a +:+ b) = String.rev b +:+ String.rev a.
Proof.
  induction a as [|x a IH]; [by rewrite append_empty_r|].
  rewrite append_cons. unfold String.rev at 1 3. simpl.
  by rewrite !rev_app_rev, IH, append_assoc.
Qed.

Lemma rev_involutive (a : string) : String.rev (String.rev a) = a.
Proof.
  induction a as [|x a IH]; [done|].
  unfold String.rev at 2. simpl. by rewrite rev_app_rev, rev_append, IH.
Qed.

Lemma whitespace_only_append (a b : string) :
  whitespace_only (a +:+ b) = whitespace_only a && whitespace_only b.
Proof.
  induction a as [|x a IH]; [done|].
  rewrite append_cons. simpl. by rewrite IH, andb_assoc.
Qed.

Lemma whitespace_only_rev (a : string) :
  whitespace_only (String.rev a) = whitespace_only a.
Proof.
  induction a as [|x a IH]; [done|].
  unfold String.rev. simpl. rewrite rev_app_rev, whitespace_only_append, IH.
  simpl. rewrite andb_true_r. apply andb_comm.
Qed.

(** [trimStart] cuts a run of whitespace off the start, as long as there is
    whitespace there. *)
Lemma trimStart_cut (s : string) :
  ∃ l, s = l +:+ trimStart s ∧ whitespace_only l = true.
Proof.
  induction s as [|c s (l & Hl & Hw)]; [by exists ""|]. simpl.
  destruct (isWhiteSpace c) eqn:Hc; [|by exists ""].
  exists (String c l). rewrite append_cons, <- Hl. simpl. by rewrite Hc.
Qed.

Lemma trimStart_starts_clean (s : string) : starts_clean (trimStart s) = true.
Proof.
  induction s as [|c s IH]; [done|]. simpl.
  destruct (isWhiteSpace c) eqn:Hc; [done|]. simpl. by rewrite Hc.
Qed.

Lemma trimStart_clean (s : string) : starts_clean s = true → trimStart s = s.
Proof. destruct s as [|c s]; [done|]. simpl. by intros ->%negb_true_iff. Qed.

Lemma trimEnd_cut (s : string) :
  ∃ r, s = trimEnd s +:+ r ∧ whitespace_only r = true.
Proof.
  destruct (trimStart_cut (String.rev s)) as (l & Hl & Hw).
  exists (String.rev l). split; [|by rewrite whitespace_only_rev].
  unfold trimEnd. by rewrite <- rev_append, <- Hl, rev_involutive.
Qed.

Lemma starts_clean_append (a b : string) :
  a ≠ "" → starts_clean (a +:+ b) = starts_clean a.
Proof. by destruct a. Qed.

Lemma starts_clean_blank (s : string) :
  starts_clean s = true → whitespace_only s = true → s = "".
Proof.
  destruct s as [|c s]; [done|]. simpl.
  intros Hc%negb_true_iff. by rewrite Hc.
Qed.

(** [trim] leaves a text that neither starts nor ends with whitespace. *)
Lemma trim_starts_clean (s : string) : starts_clean (trim s) = true.
Proof.
  unfold trim. pose proof (trimStart_starts_clean s) as Hs.
  destruct (trimEnd_cut (trimStart s)) as (r & Hr & Hw).
  destruct (decide (trimEnd (trimStart s) = "")) as [->|Hne]; [done|].
  by rewrite Hr, starts_clean_append in Hs.
Qed.

Lemma trimEnd_ends_clean (s : string) :
  starts_clean (String.rev (trimEnd s)) = true.
Proof. unfold trimEnd. rewrite rev_involutive. apply trimStart_starts_clean. Qed.

Lemma trim_trim (s : string) : trim (trim s) = trim s.
Proof.
  unfold trim at 1. rewrite (trimStart_clean _ (trim_starts_clean s)).
  unfold trim, trimEnd at 1.
  by rewrite (trimStart_clean _ (trimEnd_ends_clean _)), rev_involutive.
Qed.

Lemma trim_cut (s : string) :
  ∃ l r, s = l +:+ trim s +:+ r
         ∧ whitespace_only l = true ∧ whitespace_only r = true.
Proof.
  destruct (trimStart_cut s) as (l & Hl & Hwl).
  destruct (trimEnd_cut (trimStart s)) as (r & Hr & Hwr).
  exists l, r. unfold trim. by rewrite <- Hr.
Qed.

(** Only a text of whitespace trims to the empty text. *)
Lemma trim_blank (s : string) : trim s = "" → whitespace_only s = true.
Proof.
  intros H. destruct (trim_cut s) as (l & r & Hs & Hl & Hr).
  rewrite Hs, H, !whitespace_only_append, Hl, Hr. done.
Qed.

Lemma occurs_trim (sep s : string) : occurs sep (trim s) → occurs sep s.
Proof.
  intros (a & b & Hab). destruct (trim_cut s) as (l & r & Hs & _).
  exists (l +:+ a), (b +:+ r). by rewrite Hs, Hab, !append_assoc.
Qed.

(** No occurrence of the separator lies before the first one. *)
Lemma first_cut_clear (sep s a b : string) :
  sep ≠ "" → first_cut sep s a b → ¬ occurs sep a.
Proof.
  intros Hsep [Hs Hfirst] (a' & b' & Ha).
  specialize (Hfirst a' (b' +:+ sep +:+ b)).
  rewrite Ha, !length_append in Hfirst.
  assert (0 < String.length sep)%nat by (destruct sep; [done|simpl; lia]).
  enough (String.length a' + (String.length sep + String.length b')
          ≤ String.length a')%nat by lia.
  apply Hfirst. by rewrite Hs, Ha, !append_assoc.
Qed.

Lemma take_clear (sep s : string) (i : nat) :
  sep ≠ "" → indexOf sep s = Some i → ¬ occurs sep (take_string i s).
Proof.
  intros Hsep Hi. destruct (indexOf_Some sep s i Hsep Hi) as [Hcut _].
  by apply (first_cut_clear sep s _ _ Hsep Hcut).
Qed.

(** X6. Whatever the text, the idea and the industry that a submission
    sends have no whitespace at either end ([trim] leaves them as they
    are), and the delimiter [" in "] occurs in neither. *)
Theorem posted_fields_are_clean (input : string) :
  let idea := (parse_idea input).1 in
  let industry := (parse_idea input).2 in
  trim idea = idea ∧ trim industry = industry
  ∧ ¬ occurs " in " idea ∧ ¬ occurs " in " industry.
Proof.
  intros idea industry. subst idea industry.
  rewrite parse_idea_spec. unfold spec_parse.
  assert (Hsep : " in " ≠ "") by done.
  destruct (indexOf " in " input) as [i|] eqn:Hi; cbn [fst snd].
  - split; [apply trim_trim|]. split; [apply trim_trim|].
    split; [intros H%occurs_trim; by apply (take_clear " in " input i)|].
    intros H%occurs_trim.
    destruct (indexOf " in " (drop_string (i + 4) input)) as [j|] eqn:Hj.
    + by apply (take_clear " in " _ j Hsep Hj).
    + by apply (indexOf_None " in " _ Hsep Hj).
  - split; [apply trim_trim|]. split; [done|].
    split; [intros H%occurs_trim; by apply (indexOf_None " in " input)|].
    by apply (indexOf_None " in " "Technology").
Qed.

(** *** The requests of a submission *)

(** X7. A submission issues no request exactly when its text is empty or
    has only whitespace in it: the validation guard rejects those texts and
    no other. *)
Theorem request_issued_unless_blank (b : Backend) (input : string) :
  (handleSubmit b input).1 = [] ↔ whitespace_only input = true.
Proof.
  split; [|intros H; by rewrite handleSubmit_blank].
  unfold handleSubmit. destruct (trim input) eqn:Ht; simpl.
  - intros _. by apply trim_blank.
  - destruct (handleSubmit_try_first b input) as (more & result & ->).
    by destruct result.
Qed.

(** X8. A submission issues at most three requests, in this order: the
    POST that creates the job, the status request and the results request;
    the last two are for one and the same task identifier. *)
Theorem submission_requests_in_order (b : Backend) (input : string) :
  ∃ id,
    (handleSubmit b input).1 `prefix_of`
      [POST "/api/generate_idea" (parse_idea input).1 (parse_idea input).2;
       GET ("/api/status/" +:+ id); GET ("/api/results/" +:+ id)].
Proof.
  unfold handleSubmit, handleSubmit_try.
  destruct (negb _); [exists ""; by eexists|].
  destruct (parse_idea input) as [idea industry].
  unfold mbind, Try_bind, fetch, json, throw, mret, Try_ret. simpl.
  destruct (generate_idea b idea industry) as [m|[] [m|data]]; simpl;
    try (exists ""; by eexists).
  exists (template_string (task_id data)).
  destruct (api_status b _) as [m'|[] [m'|sd]]; simpl; try by eexists.
  destruct (decide _); simpl; [|by eexists].
  destruct (api_results b _) as [m''|[] [m''|r]]; simpl; by eexists.
Qed.

(** X9. A submission ends in [onStartGeneration] or in [onComplete] only
    when every request it made was answered with success and a body that
    parses: the job was created, its status was read, and -- for
    [onComplete] -- the status was ['completed'] and the results were
    fetched. The progress view is entered after two requests, the results
    view after three. *)
Theorem success_needs_every_answer (b : Backend) (input : string) :
  let idea := (parse_idea input).1 in
  let industry := (parse_idea input).2 in
  let post := POST "/api/generate_idea" idea industry in
  match (handleSubmit b input).2 with
  | onStartGeneration id =>
      ∃ data sd,
        generate_idea b idea industry = response true (json_value data)
        ∧ id = task_id data
        ∧ api_status b ("/api/status/" +:+ template_string id)
          = response true (json_value sd)
        ∧ status sd ≠ Some "completed"
        ∧ (handleSubmit b input).1
          = [post; GET ("/api/status/" +:+ template_string id)]
  | onComplete r =>
      ∃ data sd,
        generate_idea b idea industry = response true (json_value data)
        ∧ api_status b ("/api/status/" +:+ template_string (task_id data))
          = response true (json_value sd)
        ∧ status sd = Some "completed"
        ∧ api_results b ("/api/results/" +:+ template_string (task_id data))
          = response true (json_value r)
        ∧ (handleSubmit b input).1
          = [post; GET ("/api/status/" +:+ template_string (task_id data));
             GET ("/api/results/" +:+ template_string (task_id data))]
  | onError _ => True
  end.
Proof.
  intros idea industry post. subst idea industry post.
  unfold handleSubmit, handleSubmit_try.
  destruct (negb _); [done|].
  destruct (parse_idea input) as [idea industry].
  unfold mbind, Try_bind, fetch, json, throw, mret, Try_ret. simpl.
  destruct (generate_idea b idea industry) as [m|[] [m|data]] eqn:Hgen;
    simpl; try done.
  destruct (api_status b _) as [m'|[] [m'|sd]] eqn:Hst; simpl; try done.
  destruct (decide _) as [Hc|Hc]; simpl.
  - destruct (api_results b _) as [m''|[] [m''|r]] eqn:Hres; simpl; try done.
    by exists data, sd.
  - by exists data, sd.
Qed.

(** X22. The validation guard looks at the whole text, not at the idea: a
    text whose part before the first [" in "] is empty or has only
    whitespace in it passes the guard, and the POST that follows carries
    the empty idea. *)
Theorem blank_idea_is_posted (b : Backend) (input a rest : string) :
  first_cut " in " input a rest → whitespace_only a = true →
  truthy_string (trim input) = true
  ∧ (parse_idea input).1 = ""
  ∧ ∃ more,
      (handleSubmit b input).1
      = POST "/api/generate_idea" "" (parse_idea input).2 :: more.
Proof.
  intros Hcut Ha.
  assert (Htext : truthy_string (trim input) = true).
  { destruct (trim input) eqn:Ht; [|done].
    apply trim_blank in Ht. destruct Hcut as [Hin _].
    rewrite Hin, !whitespace_only_append in Ht.
    by rewrite Ha in Ht. }
  assert (Hidea : (parse_idea input).1 = "").
  { rewrite parse_idea_spec. unfold spec_parse.
    destruct (first_cut_indexOf " in " input a rest) as (-> & -> & _);
      [done..|].
    by apply trim_whitespace_only. }
  split; [done|]. split; [done|].
  unfold handleSubmit. rewrite Htext. simpl.
  destruct (handleSubmit_try_first b input) as (more & result & Heq).
  rewrite Heq, Hidea. destruct result; simpl; eauto.
Qed.

(** ** The client *)

Section Properties.

Variable toLocaleTimeString : N → string.
Variable location_protocol : string.

Local Abbreviation log_entry := (log_entry toLocaleTimeString).
Local Abbreviation addLog := (addLog toLocaleTimeString).
Local Abbreviation onmessage := (onmessage toLocaleTimeString).
Local Abbreviation onopen := (onopen toLocaleTimeString).
Local Abbreviation commit := (commit location_protocol).
Local Abbreviation react := (react location_protocol).
Local Abbreviation timer_fires := (timer_fires location_protocol).
Local Abbreviation elapse := (elapse location_protocol).
Local Abbreviation submit := (submit location_protocol).
Local Abbreviation reset := (reset location_protocol).
Local Abbreviation step := (step toLocaleTimeString location_protocol).
Local Abbreviation run := (run toLocaleTimeString location_protocol).
Local Abbreviation views := (views toLocaleTimeString location_protocol).
Local Abbreviation log_grows := (log_grows toLocaleTimeString).
Local Abbreviation log_kept := (log_kept toLocaleTimeString).
Local Abbreviation stamped := (stamped toLocaleTimeString).

(** *** React's commit and render *)

Lemma commit_same before w : home w = before → commit before w = w.
Proof. intros H. unfold commit. by rewrite decide_True. Qed.

Lemma home_commit before w : home (commit before w) = home w.
Proof.
  unfold commit. destruct (decide _); [done|].
  by destruct (view w), (renders_ProgressView (home w)).
Qed.

Lemma network_commit before w : network (commit before w) = network w.
Proof.
  unfold commit. destruct (decide _); [done|].
  by destruct (view w), (renders_ProgressView (home w)).
Qed.

Lemma crashed_commit before w : crashed (commit before w) = crashed w.
Proof.
  unfold commit. destruct (decide _); [done|].
  by destruct (view w), (renders_ProgressView (home w)).
Qed.


Lemma commit_idle before w :
  view w = None → renders_ProgressView (home w) = false → commit before w = w.
Proof.
  intros Hv Hr. unfold commit. destruct (decide _); [done|]. by rewrite Hv, Hr.
Qed.

(** A render that does not happen, or does not throw, changes nothing. *)
Lemma render_same v w : view w = v → render v w = w.
Proof.
  intros H. unfold render. destruct (view w); [|done]. by rewrite decide_True.
Qed.

Lemma render_idle v w : view w = None → render v w = w.
Proof. intros H. unfold render. by rewrite H. Qed.

Lemma render_rendered v w p :
  view w = Some p → render_throws p = false → render v w = w.
Proof.
  intros Hv Hp. unfold render. rewrite Hv, Hp. by destruct (decide _).
Qed.

(** A render that throws unmounts the tree. *)
Lemma render_thrown v w p :
  view w = Some p → view w ≠ v → render_throws p = true →
  render v w = unmount_tree p w.
Proof.
  intros Hv Hne Hp. unfold render. rewrite Hv in *.
  by rewrite decide_False, Hp.
Qed.

Lemma home_render v w : home (render v w) = home w.
Proof. unfold render. by repeat case_match. Qed.

Lemma network_render v w : network (render v w) = network w.
Proof. unfold render. by repeat case_match. Qed.

Lemma timers_render v w : timers (render v w) = timers w.
Proof. unfold render. by repeat case_match. Qed.

Lemma view_render v w : view (render v w) = view w ∨ view (render v w) = None.
Proof. unfold render. repeat case_match; auto. Qed.

Lemma home_react handler w : home (react handler w) = home (handler w).
Proof. unfold react. by rewrite home_render, home_commit. Qed.

Lemma network_react handler w : network (react handler w) = network (handler w).
Proof. unfold react. by rewrite network_render, network_commit. Qed.

(** A handler that leaves [Home] and the view as they were is all that
    happens. *)
Lemma react_same handler w :
  home (handler w) = home w → view (handler w) = view w →
  react handler w = handler w.
Proof.
  intros Hh Hv. unfold react. rewrite commit_same by done. by apply render_same.
Qed.

(** So is a handler that leaves [Home] as it was and the view in a state
    that renders. *)
Lemma react_rendered handler w :
  home (handler w) = home w →
  (∀ p, view (handler w) = Some p → render_throws p = false) →
  react handler w = handler w.
Proof.
  intros Hh Hr. unfold react. rewrite commit_same by done.
  destruct (view (handler w)) as [p|] eqn:Hv; [|by apply render_idle].
  apply (render_rendered _ _ p); auto.
Qed.

Lemma stream_Some w s : stream w = Some s → ∃ p, view w = Some p.
Proof. unfold stream. destruct (view w); naive_solver. Qed.

(** *** The invariant *)

Lemma wf_initial : wf World_initial.
Proof.
  split; [split; [by intros [? [=]]|by intros [_ [=]]]|]. split; [|done].
  split; simpl; intros *; [done|by rewrite lookup_nil|by intros ?%elem_of_nil].
Qed.

(** Closing the socket of the view leaves no connection open. *)
Lemma close_all w p i c :
  wf_io w → view w = Some p →
  close (ws p) (sockets w) !! i = Some c → readyState c = CLOSED.
Proof.
  intros [Hws Hso Hti] Hv Hi. unfold close in Hi.
  destruct (decide (readyState c = CLOSED)) as [|Hc]; [done|exfalso].
  destruct (decide (ws p = i)) as [<-|Hne].
  - rewrite list_lookup_alter_eq in Hi.
    by destruct (sockets w !! ws p); simplify_eq/=.
  - rewrite list_lookup_alter_ne in Hi by done.
    destruct (Hso i c Hi Hc) as (p' & Hp' & ?). congruence.
Qed.

Lemma commit_wf_io before w :
  wf_io w → crashed w = false → (home w = before → mounted_ok w) →
  mounted_ok (commit before w) ∧ wf_io (commit before w).
Proof.
  intros Hio Hc Hm. pose proof Hio as [Hws Hso Hti]. unfold commit.
  destruct (decide (home w = before)) as [Heq|Hne]; [by split; auto|].
  destruct (view w) as [p|] eqn:Hv, (renders_ProgressView (home w)) eqn:Hr.
  - (* the effect runs again *)
    split; [split; simpl; eauto|]. split; simpl.
    + intros ? [= <-]. simpl. unfold close.
      rewrite length_app, length_alter. simpl. lia.
    + intros i c Hi Hopen. eexists; split; [done|]. simpl.
      apply lookup_app_Some in Hi as [Hi|[Hlen Hi]].
      * by apply (close_all w p) in Hi.
      * unfold close in *. rewrite length_alter in *.
        destruct (i - length (sockets w))%nat as [|k] eqn:Hk; [lia|done].
    + done.
  - (* the view is unmounted *)
    split; [split; simpl; [by intros [? [=]]|by rewrite Hr; intros [_ [=]]]|].
    split; simpl.
    + done.
    + intros i c Hi Hopen. by apply (close_all w p) in Hi.
    + done.
  - (* the view is mounted *)
    split; [split; simpl; eauto|]. split; simpl.
    + intros ? [= <-]. simpl. rewrite length_app. simpl. lia.
    + intros i c Hi Hopen. eexists; split; [done|]. simpl.
      apply lookup_app_Some in Hi as [Hi|[Hlen Hi]].
      * destruct (Hso i c Hi Hopen) as (p' & [=] & ?).
      * destruct (i - length (sockets w))%nat as [|k] eqn:Hk; [lia|done].
    + done.
  - split; [|done]. unfold mounted_ok. rewrite Hv, Hr.
    split; [by intros [? [=]]|by intros [_ [=]]].
Qed.

Lemma render_throws_set_ws n p : render_throws (set_ws n p) = render_throws p.
Proof. done. Qed.

(** The render after a commit: the view renders, or the tree is
    unmounted. *)
Lemma render_wf v w :
  mounted_ok w → wf_io w → crashed w = false →
  (view w = v → ∀ p, view w = Some p → render_throws p = false) →
  wf (render v w).
Proof.
  intros Hm Hio Hc Hv. pose proof Hio as [Hws Hso Hti]. unfold render.
  destruct (view w) as [p|] eqn:Hp.
  - destruct (decide (Some p = v)) as [Heq|Hne].
    { split; [done|]. split; [done|]. split; [|by rewrite Hc].
      intros p' Hp'. rewrite Hp in Hp'. apply Hv; [congruence|done]. }
    destruct (render_throws p) eqn:Ht.
    + split; [split; simpl; [by intros [? [=]]|by intros [[=] _]]|].
      split; [split; simpl|split; simpl].
      * done.
      * intros i c Hi Hopen. by apply (close_all w p) in Hi.
      * done.
      * done.
      * intros _. apply Hm. by rewrite Hp.
    + split; [done|]. split; [done|]. split; [|by rewrite Hc].
      intros p' Hp'. rewrite Hp in Hp'. congruence.
  - split; [done|]. split; [done|]. split; [|by rewrite Hc].
    intros p' Hp'. congruence.
Qed.

(** A handler that keeps the invariant of the connections, and keeps the
    view mounted or not as it was, keeps the whole invariant. *)
Lemma react_wf handler w :
  wf w → crashed w = false →
  wf_io (handler w) → crashed (handler w) = false →
  (home (handler w) = home w → (is_Some (view (handler w)) ↔ is_Some (view w))) →
  wf (react handler w).
Proof.
  intros (Hm & Hio & Hr & _) Hc Hio' Hc' Hv. unfold react.
  destruct (commit_wf_io (home w) (handler w)) as [Hm1 Hio1]; [done..| |].
  { intros Heq. unfold mounted_ok in *. rewrite Heq, (Hv Heq), Hc'.
    by rewrite Hc in Hm. }
  apply render_wf; [done|done|by rewrite crashed_commit|].
  intros Heq p Hp. apply Hr. congruence.
Qed.

(** The tree is mounted wherever something of it is on the screen. *)
Lemma mounted_alive w : wf w → is_Some (view w) → crashed w = false.
Proof. intros [Hm _] Hv. by apply Hm in Hv as [? _]. Qed.

Lemma elsewhere_alive w :
  wf w → currentView (home w) ≠ Progress → crashed w = false.
Proof.
  intros (_ & _ & _ & Hc) Hne. destruct (crashed w); [|done].
  specialize (Hc eq_refl). unfold renders_ProgressView in Hc.
  apply andb_prop in Hc as [Hc _]. by apply bool_decide_eq_true in Hc.
Qed.

Lemma set_home_wf_io f w : wf_io w → wf_io (set_home f w).
Proof. by intros []. Qed.

Lemma set_view_wf_io f w :
  (∀ p, ws (f p) = ws p) → wf_io w → wf_io (set_view f w).
Proof.
  intros Hf [Hws Hso Hti]. split; simpl; [| |done].
  - intros p' Hp'. destruct (view w) as [p|]; simplify_eq/=. rewrite Hf. eauto.
  - intros i c Hi Hc. destruct (Hso i c Hi Hc) as (p & -> & <-).
    exists (f p). by rewrite Hf.
Qed.

Lemma console_write_wf_io line w : wf_io w → wf_io (console_write line w).
Proof. by intros []. Qed.

Lemma addLog_wf_io text w : wf_io w → wf_io (addLog text w).
Proof. by apply set_view_wf_io. Qed.

Lemma setTimeout_wf_io w : wf_io w → wf_io (setTimeout_onComplete w).
Proof.
  intros [Hws Hso Hti]. split; simpl; [done..|].
  intros d [Hd| ->%list_elem_of_singleton]%elem_of_app; [auto|lia].
Qed.

Lemma onmessage_wf_io payload w : wf_io w → wf_io (onmessage payload w).
Proof.
  intros H. unfold onmessage. destruct payload as [m| |data];
    try by apply console_write_wf_io.
  repeat case_match;
    repeat first [ apply addLog_wf_io | apply setTimeout_wf_io
                 | apply set_home_wf_io | apply set_view_wf_io; [done|] ]; done.
Qed.

Lemma is_Some_view_onmessage payload w :
  is_Some (view (onmessage payload w)) ↔ is_Some (view w).
Proof.
  unfold onmessage, addLog, setTimeout_onComplete.
  destruct payload as [m| |data]; try done.
  repeat case_match; simpl; by rewrite ?fmap_is_Some.
Qed.

Lemma crashed_onmessage payload w : crashed (onmessage payload w) = crashed w.
Proof.
  unfold onmessage. destruct payload as [m| |data]; try done.
  by repeat case_match.
Qed.

Lemma timer_fires_wf w : wf w → wf (timer_fires w).
Proof.
  intros H. unfold timer_fires. destruct (crashed w) eqn:Hc; [done|].
  apply react_wf; [done|done|by apply set_home_wf_io, H|done|done].
Qed.

Lemma elapse_wf ms w : wf w → wf (elapse ms w).
Proof.
  intros (Hm & [Hws Hso Hti] & Hr). unfold elapse.
  induction (filter _ (timers w)) as [|d due IH]; simpl.
  - split; [done|]. split; [|done]. split; simpl; [done..|].
    by intros d [? _]%list_elem_of_filter.
  - by apply timer_fires_wf.
Qed.

Lemma submit_wf input b w :
  wf w → currentView (home w) = Input → wf (submit input b w).
Proof.
  intros H Hin.
  assert (Hc : crashed w = false) by (apply elsewhere_alive; [done|congruence]).
  apply react_wf; [done|done|..]; destruct (handleSubmit b input); [|done..].
  apply set_home_wf_io. by destruct H as (_ & [] & _).
Qed.

Lemma reset_wf w : wf w → crashed w = false → wf (reset w).
Proof.
  intros H Hc. apply react_wf; [done|done|by apply set_home_wf_io, H|done|done].
Qed.

Lemma alter_wf_io s w p :
  view w = Some p → wf_io w →
  wf_io (set_sockets (alter (set_readyState s) (ws p)) w).
Proof.
  intros Hv [Hws Hso Hti]. split; simpl; [| |done].
  - intros p' Hp'. rewrite length_alter. eauto.
  - intros i c Hi Hc. destruct (decide (ws p = i)) as [<-|Hne]; [eauto|].
    rewrite list_lookup_alter_ne in Hi by done. eauto.
Qed.

Lemma step_wf w e : wf w → wf (step w e).
Proof.
  intros H. destruct e as [ms|input b| |payload| | |]; simpl.
  - by apply elapse_wf.
  - unfold renders_IdeaForm. case_bool_decide; [by apply submit_wf|done].
  - destruct (view w) as [p|] eqn:Hv; [|done].
    destruct (stream w) as [[]|]; try done.
    assert (Hc : crashed w = false)
      by (apply mounted_alive; [done|by rewrite Hv]).
    destruct H as (Hm & Hio & Hr).
    apply react_wf.
    + split; [exact Hm|]. split; [by apply alter_wf_io|exact Hr].
    + done.
    + apply addLog_wf_io, console_write_wf_io. by apply alter_wf_io.
    + done.
    + intros _. simpl. by rewrite Hv.
  - destruct (stream w) as [[]|] eqn:Hs; try done.
    assert (Hc : crashed w = false).
    { apply mounted_alive; [done|]. by destruct (stream_Some _ _ Hs) as [p ->]. }
    apply react_wf; [done|done|by apply onmessage_wf_io, H| |].
    + by rewrite crashed_onmessage.
    + intros _. apply is_Some_view_onmessage.
  - destruct (view w) as [p|] eqn:Hv; [|done].
    assert (Hc : crashed w = false)
      by (apply mounted_alive; [done|by rewrite Hv]).
    destruct H as (Hm & Hio & Hr).
    destruct (stream w) as [[]|]; try done.
    all: apply react_wf;
      [split; [exact Hm|split; [by apply alter_wf_io|exact Hr]]
      |done
      |apply set_home_wf_io, console_write_wf_io; by apply alter_wf_io
      |done
      |intros _; simpl; by rewrite Hv].
  - destruct (view w) as [p|] eqn:Hv; [|done].
    destruct H as (Hm & Hio & Hr).
    destruct (stream w) as [[]|]; try done.
    all: split; [exact Hm|split; [by apply alter_wf_io|exact Hr]].
  - unfold renders_ResultsView, renders_ErrorView.
    destruct (_ || _) eqn:Hb; [|done]. apply reset_wf; [done|].
    apply elsewhere_alive; [done|]. intros Hp. rewrite Hp in Hb.
    by repeat case_bool_decide.
Qed.

Lemma run_wf w es : wf w → wf (run w es).
Proof. revert w. induction es as [|e es IH]; intros w H; simpl; auto using step_wf. Qed.

(** Every world that the client reaches is well formed. *)
Lemma reachable_wf es : wf (run World_initial es).
Proof. apply run_wf, wf_initial. Qed.

(** *** Connections *)

Lemma filter_none {A} (P : A → Prop) `{!∀ x, Decision (P x)} (l : list A) :
  (∀ x, x ∈ l → ¬ P x) → filter P l = [].
Proof.
  induction l as [|x l IH]; intros Hl; [done|].
  rewrite filter_cons_False by (apply Hl; left). apply IH.
  intros y Hy. apply Hl. by right.
Qed.

Lemma filter_all {A} (P : A → Prop) `{!∀ x, Decision (P x)} (l : list A) :
  (∀ x, x ∈ l → P x) → filter P l = l.
Proof.
  induction l as [|x l IH]; intros Hl; [done|].
  rewrite filter_cons_True by (apply Hl; left). f_equal. apply IH.
  intros y Hy. apply Hl. by right.
Qed.

(** With no view mounted, no connection is open. *)
Lemma unmounted_no_connection w :
  wf w → view w = None → open_connections w = [].
Proof.
  intros (_ & [_ Hso _] & _) Hv. unfold open_connections. apply filter_none.
  intros c [i Hi]%list_elem_of_lookup Hc.
  destruct (Hso i c Hi Hc) as (p & Hp & _). congruence.
Qed.

(** With a view mounted, the open connections are at most its socket. *)
Lemma mounted_view_unmounted_by w :
  wf w → renders_ProgressView (home w) = false → view w = None.
Proof.
  intros [Hm _] Hr. destruct (view w) eqn:Hv; [|done].
  assert (renders_ProgressView (home w) = true) by (apply Hm; eauto). congruence.
Qed.

Lemma crashed_unmounted w : wf w → crashed w = true → view w = None.
Proof.
  intros [Hm _] Hc. destruct (view w) eqn:Hv; [|done].
  assert (crashed w = false) by (apply Hm; eauto). congruence.
Qed.

(** X1. In every state that the client reaches, the progress view is
    mounted exactly when the view shell renders it -- and the tree has not
    been unmounted by a render that threw --, every connection that is not
    closed is the one of the mounted progress view, and every pending timer
    is due in the future. *)
Theorem reachable_invariant (prior : list Event) :
  let w := run World_initial prior in
  (is_Some (view w) ↔ crashed w = false ∧ renders_ProgressView (home w) = true)
  ∧ (∀ i c, sockets w !! i = Some c → readyState c ≠ CLOSED →
       ∃ p, view w = Some p ∧ ws p = i)
  ∧ (length (open_connections w) ≤ 1)%nat
  ∧ (∀ d, d ∈ timers w → (now w < d)%N).
Proof.
  intros w. destruct (reachable_wf prior) as (Hm & [Hws Hso Hti] & _).
  fold w in Hm, Hws, Hso, Hti.
  split; [done|]. split; [done|]. split; [|done].
  unfold open_connections.
  destruct (view w) as [p|] eqn:Hv.
  - assert (Hothers : ∀ i c, sockets w !! i = Some c → readyState c ≠ CLOSED → i = ws p).
    { intros i c Hi Hc. by destruct (Hso i c Hi Hc) as (p' & [= <-] & <-). }
    clear -Hothers. revert Hothers. generalize (ws p). generalize (sockets w).
    induction l as [|c l IH]; intros n H; [simpl; lia|].
    destruct (decide (readyState c ≠ CLOSED)) as [Hc|Hc].
    + rewrite filter_cons_True by done.
      rewrite (filter_none _ l); [simpl; lia|].
      intros c' [i Hi]%list_elem_of_lookup Hc'.
      pose proof (H 0%nat c eq_refl Hc). pose proof (H (S i) c' Hi Hc'). lia.
    + rewrite filter_cons_False by done. destruct n as [|n].
      * rewrite (filter_none _ l); [simpl; lia|].
        intros c' [i Hi]%list_elem_of_lookup Hc'.
        pose proof (H (S i) c' Hi Hc'). lia.
      * apply (IH n). intros i c' Hi Hc'.
        pose proof (H (S i) c' Hi Hc'). lia.
  - rewrite filter_none; [simpl; lia|].
    intros c [i Hi]%list_elem_of_lookup Hc.
    by destruct (Hso i c Hi Hc) as (p & [=] & _).
Qed.

(** *** Reset *)

(** The connections after the socket of the view, if there is one, was
    closed: each is closed, with the URL it had. *)
Lemma closed_connections w i c :
  wf w → sockets w !! i = Some c →
  match view w with
  | Some p => close (ws p) (sockets w)
  | None => sockets w
  end !! i = Some {| url := url c; readyState := CLOSED |}.
Proof.
  intros (_ & [_ Hso _] & _) Hi.
  assert (Hclosed : ∀ p, view w = Some p → ws p ≠ i →
            c = {| url := url c; readyState := CLOSED |}).
  { intros p Hp Hne. destruct (decide (readyState c = CLOSED)) as [Hc|Hc].
    - destruct c. simpl in *. by subst.
    - destruct (Hso i c Hi Hc) as (p' & Hp' & ?). congruence. }
  destruct (view w) as [p|] eqn:Hv.
  - unfold close. destruct (decide (ws p = i)) as [<-|Hne].
    + by rewrite list_lookup_alter_eq, Hi.
    + rewrite list_lookup_alter_ne by done. rewrite Hi. f_equal. eauto.
  - rewrite Hi. f_equal. destruct (decide (readyState c = CLOSED)) as [Hc|Hc].
    + destruct c. simpl in *. by subst.
    + by destruct (Hso i c Hi Hc) as (p' & [=] & ?).
Qed.

Lemma mounted_in_progress w :
  wf w → is_Some (view w) → currentView (home w) = Progress.
Proof.
  intros [Hm _] Hv. apply Hm in Hv as [_ Hv]. unfold renders_ProgressView in Hv.
  apply andb_prop in Hv as [Hv _]. by apply bool_decide_eq_true in Hv.
Qed.

(** C3. From every state that the client reaches -- the Progress, Results
    and Error views among them -- the reset operation yields the input view
    with no task identifier and no error message; no [ProgressView] is
    mounted, so no log is kept. Every connection made so far is still
    there, with its URL, and is closed: the one that was open has been
    closed, and no connection remains open. *)
Theorem reset_yields_input (prior : list Event) :
  let w := run World_initial prior in
  let w' := reset w in
  home w' = {| currentView := Input; taskId := None; error := None |}
  ∧ view w' = None
  ∧ displayed_log w' = []
  ∧ open_connections w' = []
  ∧ length (sockets w') = length (sockets w)
  ∧ (∀ i c, sockets w !! i = Some c →
       sockets w' !! i = Some {| url := url c; readyState := CLOSED |}).
Proof.
  intros w w'.
  assert (Hwf0 : wf w) by apply reachable_wf.
  assert (Hh : home w' = {| currentView := Input; taskId := None; error := None |}).
  { unfold w', reset. by rewrite home_react. }
  assert (Hvs : view w' = None
            ∧ sockets w' =
                match view w with
                | Some p => close (ws p) (sockets w)
                | None => sockets w
                end).
  { unfold w', reset, react, commit. simpl.
    destruct (decide _) as [Heq|Hne].
    - rewrite render_same by done. simpl.
      destruct (view w) as [p|] eqn:Hp; [|done].
      assert (currentView (home w) = Progress) as Hin
        by (apply mounted_in_progress; [done|by rewrite Hp]).
      rewrite <- Heq in Hin. done.
    - unfold renders_ProgressView. simpl.
      destruct (view w) as [p|] eqn:Hp; by rewrite render_idle. }
  destruct Hvs as [Hv Hs].
  assert (Hlen : length (sockets w') = length (sockets w)).
  { rewrite Hs. destruct (view w); [|done]. unfold close. by rewrite length_alter. }
  assert (Hall : ∀ i c, sockets w !! i = Some c →
            sockets w' !! i = Some {| url := url c; readyState := CLOSED |}).
  { intros i c Hi. rewrite Hs. by apply closed_connections. }
  repeat split; [done|done| | |done|done].
  - unfold displayed_log. by rewrite Hv.
  - apply filter_none. intros c' [i Hi]%list_elem_of_lookup.
    destruct (lookup_lt_is_Some_2 (sockets w) i) as [c Hc].
    { rewrite <- Hlen. by apply lookup_lt_Some in Hi. }
    rewrite (Hall i c Hc) in Hi. injection Hi as <-. simpl. by intros [].
Qed.

(** *** Frames that do not parse *)

(** C6. A frame whose payload does not parse leaves the view shell, the
    progress view (percentage, stage, message and log), the connections, the
    timers and the requests as they were; when the frame is delivered, its
    only trace is one line on the console. *)
Theorem malformed_frame_is_swallowed (w : World) (m : string) :
  let w' := step w (ws_message (SyntaxError m)) in
  home w' = home w ∧ view w' = view w ∧ sockets w' = sockets w
  ∧ timers w' = timers w ∧ now w' = now w ∧ network w' = network w
  ∧ console w' =
      match stream w with
      | Some OPEN =>
          console w ++ ["Failed to parse WebSocket message: SyntaxError: " +:+ m]
      | _ => console w
      end.
Proof.
  simpl. destruct (stream w) as [[]|]; try done.
  by rewrite react_same by done.
Qed.

(** X4. The value [null] parses, but reading its [type] throws inside the
    same [try]: such a frame is swallowed in the same way. *)
Theorem null_frame_is_swallowed (w : World) :
  let w' := step w (ws_message JSON_null) in
  home w' = home w ∧ view w' = view w ∧ sockets w' = sockets w
  ∧ timers w' = timers w ∧ now w' = now w ∧ network w' = network w.
Proof.
  simpl. destruct (stream w) as [[]|]; try done.
  by rewrite react_same by done.
Qed.

(** *** Validation *)

(** C7. A submission of a text that is empty or has only whitespace in it
    issues no request, and ends in the error view with the validation
    message. *)
Theorem blank_submission_is_rejected (w : World) (input : string) (b : Backend) :
  whitespace_only input = true →
  currentView (home w) = Input →
  let w' := step w (Submit input b) in
  (handleSubmit b input).1 = []
  ∧ network w' = network w
  ∧ currentView (home w') = Error
  ∧ error (home w') = Some "Please enter a startup idea".
Proof.
  intros Hblank Hin. simpl. unfold renders_IdeaForm.
  rewrite bool_decide_eq_true_2 by done.
  unfold submit. rewrite network_react, home_react.
  rewrite (handleSubmit_blank b input Hblank). simpl.
  by rewrite app_nil_r.
Qed.

(** *** Parsing the submitted text *)

(** C9. A submission that passes validation first POSTs the idea and the
    industry parsed from the text by splitting it on [" in "]: the idea is
    the trimmed part before the first [" in "], the industry the trimmed
    part after it (up to the next [" in "], if there is one), or
    ["Technology"] when the text has no [" in "]. For
    ["AI scheduling tool in healthcare"] these are ["AI scheduling tool"]
    and ["healthcare"]. *)
Theorem submit_parses_idea_and_industry (b : Backend) (input : string) :
  truthy_string (trim input) = true →
  let idea := (parse_idea input).1 in
  let industry := (parse_idea input).2 in
  (∃ more,
     (handleSubmit b input).1 = POST "/api/generate_idea" idea industry :: more)
  ∧ (¬ occurs " in " input → idea = trim input ∧ industry = "Technology")
  ∧ (∀ a rest, first_cut " in " input a rest →
       idea = trim a
       ∧ (¬ occurs " in " rest → industry = trim rest)
       ∧ (∀ c d, first_cut " in " rest c d → industry = trim c))
  ∧ parse_idea "AI scheduling tool in healthcare"
    = ("AI scheduling tool", "healthcare").
Proof.
  intros H idea industry. split; [|split; [|split; [|by vm_compute]]].
  - unfold handleSubmit. rewrite H. simpl.
    destruct (handleSubmit_try_first b input) as (more & result & Heq).
    rewrite Heq. destruct result; simpl; eauto.
  - intros Hno. unfold idea, industry. rewrite parse_idea_spec. unfold spec_parse.
    destruct (indexOf " in " input) as [i|] eqn:Hi; [|done].
    exfalso. apply Hno.
    destruct (indexOf_Some " in " input i) as [[Heq _] _]; [done..|].
    unfold occurs. eauto.
  - intros a rest Hcut. unfold idea, industry.
    rewrite parse_idea_spec. unfold spec_parse.
    destruct (first_cut_indexOf " in " input a rest) as (-> & -> & Hrest);
      [done..|].
    change (String.length a + 4)%nat
      with (String.length a + String.length " in ")%nat.
    rewrite Hrest. simpl. split; [done|]. split.
    + intros Hno. destruct (indexOf " in " rest) as [j|] eqn:Hj; [|done].
      exfalso. apply Hno.
      destruct (indexOf_Some " in " rest j) as [[Heq _] _]; [done..|].
      unfold occurs. eauto.
    + intros c d Hcut'.
      by destruct (first_cut_indexOf " in " rest c d) as (-> & -> & _).
Qed.

(** *** The log *)

Lemma log_kept_refl t v : log_kept t v v.
Proof. destruct v as [p|]; [|done]. exists []. by rewrite app_nil_r. Qed.

Lemma log_grows_refl t v : log_grows t v v.
Proof. destruct v as [p|]; [|done]. exists []. by rewrite app_nil_r. Qed.

Lemma log_kept_addLog t text v :
  log_kept t v (setLogs (λ prev, prev ++ [log_entry t text]) <$> v).
Proof.
  destruct v as [p|]; [|done]. simpl. eexists; split; [done|].
  apply Forall_singleton. eauto.
Qed.

Lemma commit_log_grows t before w v :
  log_kept t v (view w) → log_grows t v (view (commit before w)).
Proof.
  unfold commit. destruct (decide _).
  { destruct v, (view w); naive_solver. }
  destruct (view w) as [p|] eqn:Hv, (renders_ProgressView (home w)), v as [p0|];
    simpl; rewrite ?Hv; try done.
Qed.

Lemma react_log_grows handler w :
  log_kept (now w) (view w) (view (handler w)) →
  log_grows (now w) (view w) (view (react handler w)).
Proof.
  intros H. unfold react.
  destruct (view_render (view w) (commit (home w) (handler w))) as [-> | ->].
  - by apply commit_log_grows.
  - unfold log_grows. by destruct (view w).
Qed.

Lemma onmessage_log_kept payload w :
  log_kept (now w) (view w) (view (onmessage payload w)).
Proof.
  unfold onmessage. destruct payload as [m| |data]; try apply log_kept_refl.
  repeat case_match; try apply log_kept_refl.
  - simpl. rewrite <- !option_fmap_compose.
    destruct (view w) as [p|]; [|done]. simpl.
    eexists; split; [done|]. apply Forall_singleton. eauto.
  - simpl. rewrite <- !option_fmap_compose.
    destruct (view w) as [p|]; [|done]. simpl.
    eexists; split; [done|]. apply Forall_singleton. eauto.
Qed.

Lemma view_timer_fires w :
  view (timer_fires w) = view w ∨ view (timer_fires w) = None.
Proof.
  unfold timer_fires. destruct (crashed w); [by left|]. unfold react.
  destruct (view_render (view w) (commit (home w) (set_home handleComplete w)))
    as [-> | ->]; [|by right].
  unfold commit. destruct (decide _); [by left|].
  unfold renders_ProgressView. simpl.
  destruct (view w) eqn:Hv; simpl; rewrite ?Hv; auto.
Qed.

Lemma view_elapse ms w :
  view (elapse ms w) = view w ∨ view (elapse ms w) = None.
Proof.
  unfold elapse. induction (filter _ (timers w)) as [|d due IH]; simpl; [auto|].
  destruct (view_timer_fires (foldr (λ _, timer_fires)
     (with_now (now w + ms) (set_timers (filter (λ d0, (now w + ms < d0)%N)) w)) due))
    as [->| ->]; auto.
Qed.

(** C10. The log of the progress view is append-only: a view that an event
    mounts starts with the single entry ["Pipeline started..."], and an
    event that leaves the view mounted leaves its log as it was or adds
    timestamped entries at its end. *)
Theorem log_is_append_only (w : World) (e : Event) :
  match view w, view (step w e) with
  | None, Some p' => logs p' = ["Pipeline started..."]
  | Some p, Some p' =>
      ∃ added, logs p' = logs p ++ added
               ∧ Forall (λ line, ∃ text, line = log_entry (now w) text) added
  | _, None => True
  end.
Proof.
  change (log_grows (now w) (view w) (view (step w e))).
  destruct e as [ms|input b| |payload| | |]; simpl.
  - destruct (view_elapse ms w) as [->| ->]; [apply log_grows_refl|].
    unfold log_grows. by destruct (view w).
  - destruct (renders_IdeaForm _); [|apply log_grows_refl].
    apply react_log_grows. destruct (handleSubmit b input). apply log_kept_refl.
  - destruct (view w) as [p|] eqn:Hv; rewrite <- ?Hv; [|apply log_grows_refl].
    destruct (stream w) as [[]|]; try apply log_grows_refl.
    apply (react_log_grows onopen (set_sockets _ w)). simpl.
    apply log_kept_addLog.
  - destruct (stream w) as [[]|]; try apply log_grows_refl.
    apply react_log_grows, onmessage_log_kept.
  - destruct (view w) as [p|] eqn:Hv; rewrite <- ?Hv; [|apply log_grows_refl].
    destruct (stream w) as [[]|]; try apply log_grows_refl.
    all: apply (react_log_grows onerror (set_sockets _ w)); simpl;
      apply log_kept_refl.
  - destruct (view w) as [p|] eqn:Hv; rewrite <- ?Hv; [|apply log_grows_refl].
    destruct (stream w) as [[]|]; simpl; rewrite ?Hv; apply log_grows_refl.
  - destruct (_ || _); [|apply log_grows_refl].
    apply react_log_grows, log_kept_refl.
Qed.

(** *** Progress updates *)

Lemma or_number_Some v : or_number (Some v) 0 == v.
Proof.
  unfold or_number. destruct (Qeq_bool v 0) eqn:H; [|reflexivity].
  apply Qeq_bool_eq in H. by rewrite H.
Qed.

Lemma Math_round_integer (v : Q) (n : Z) : v == inject_Z n → Math_round v = n.
Proof.
  intros H. unfold Math_round. rewrite (Qfloor_comp _ (inject_Z n + (1 # 2))).
  - unfold Qfloor, inject_Z, Qplus. simpl.
    symmetry. apply (Z.div_unique _ _ _ 1); lia.
  - by rewrite H.
Qed.

(** While no timer is due, time passing only moves the clock. *)
Lemma elapse_idle ms w :
  (∀ d, d ∈ timers w → (now w + ms < d)%N) →
  elapse ms w = with_now (now w + ms) w.
Proof.
  intros H. unfold elapse.
  rewrite (filter_none (λ d, (d ≤ now w + ms)%N))
    by (intros d Hd; specialize (H d Hd); lia).
  unfold with_now, set_timers. simpl.
  rewrite (filter_all (λ d, (now w + ms < d)%N)) by done.
  by destruct w.
Qed.

(** The stage that, when shown, makes the render throw. *)
Lemma render_throws_stage p : render_throws p = true ↔ stage p = "__proto__".
Proof.
  unfold render_throws, displayed_stage, stage_label, get. simpl. split.
  - destruct (STAGE_LABELS !! stage p) as [label|]; simpl.
    { by destruct (truthy_string label). }
    case_bool_decide; simpl; [|by destruct (stage p)].
    by intros ?%bool_decide_eq_true.
  - by intros ->.
Qed.

Lemma or_string_is v d s : or_string v d = s → d ≠ s → v = Some s.
Proof. unfold or_string. destruct v as [[|c t]|]; simpl; congruence. Qed.

(** A frame that does not break the render leaves a view that renders. *)
Lemma onmessage_renders payload w :
  ¬ breaks_render payload →
  (∀ p, view w = Some p → render_throws p = false) →
  ∀ p, view (onmessage payload w) = Some p → render_throws p = false.
Proof.
  intros Hb Hr p. unfold onmessage, addLog, setTimeout_onComplete.
  destruct payload as [m| |data]; simpl; auto.
  destruct (bool_decide (data_type data = Some "progress")
            || bool_decide (data_type data = Some "status")) eqn:Hu.
  - simpl. destruct (view w) as [p0|]; [|done]. intros [= <-].
    destruct (render_throws _) eqn:Ht; [|done]. exfalso. apply Hb. simpl.
    apply render_throws_stage in Ht. simpl in Ht.
    split; [|by apply (or_string_is _ "unknown")].
    apply orb_prop in Hu as [Hu|Hu]; apply bool_decide_eq_true in Hu;
      [by left|by right].
  - repeat case_match; simpl; auto.
    destruct (view w) as [p0|]; [|done]. by intros [= <-].
Qed.

(** What a delivered [progress] or [status] update does, when its stage is
    one that renders. *)
Lemma step_update w p data :
  view w = Some p → streaming w → is_update data →
  data_stage data ≠ Some "__proto__" →
  step w (ws_message (JSON_object data)) =
    with_view
      (Some {| progress := or_number (data_progress data) 0;
               stage := or_string (data_stage data) "unknown";
               message := or_string (data_message data) "Processing...";
               logs := logs p ++ [log_entry (now w) (progress_line data)];
               ws := ws p |}) w.
Proof.
  intros Hv Hs Hd Hst. simpl. rewrite Hs.
  assert (Hon : onmessage (JSON_object data) w =
    addLog (progress_line data)
      (set_view (setMessage (or_string (data_message data) "Processing..."))
      (set_view (setStage (or_string (data_stage data) "unknown"))
      (set_view (setProgress (or_number (data_progress data) 0)) w)))).
  { unfold onmessage.
    assert (bool_decide (data_type data = Some "progress")
            || bool_decide (data_type data = Some "status") = true) as ->; [|done].
    destruct Hd as [Hd|Hd]; rewrite Hd; [done|]. apply orb_true_r. }
  rewrite react_rendered; rewrite Hon; [|done|].
  - unfold addLog, set_view, with_view. simpl. by rewrite Hv.
  - simpl. rewrite Hv. intros ? [= <-].
    destruct (render_throws _) eqn:Ht; [|done]. exfalso. apply Hst.
    apply render_throws_stage in Ht. by apply (or_string_is _ "unknown").
Qed.

Lemma run_cons w e es : run w (e :: es) = run (step w e) es.
Proof. reflexivity. Qed.

Lemma progress_events_run frames : ∀ w p,
  view w = Some p → streaming w →
  Forall (λ f, is_update f.2 ∧ data_stage f.2 ≠ Some "__proto__") frames →
  (∀ d, d ∈ timers w → (now w + total_delay frames < d)%N) →
  ∃ p', view (run w (arrivals frames)) = Some p'
    ∧ logs p' = logs p ++ stamped (now w) frames
    ∧ progress p' =
        match last frames with
        | Some (_, data) => or_number (data_progress data) 0
        | None => progress p
        end.
Proof.
  induction frames as [|[ms data] frames IH]; intros w p Hv Hs Hf Ht.
  - exists p. simpl. by rewrite app_nil_r.
  - apply Forall_cons in Hf as [[Hd Hst] Hf]. simpl in Hd, Hst, Ht.
    change (arrivals ((ms, data) :: frames))
      with (Elapse ms :: ws_message (JSON_object data) :: arrivals frames).
    rewrite !run_cons. change (step w (Elapse ms)) with (elapse ms w).
    rewrite elapse_idle by (intros d Hd'; specialize (Ht d Hd'); lia).
    rewrite (step_update _ p) by done.
    match goal with |- context [with_view (Some ?q) _] => set (p1 := q) end.
    destruct (IH (with_view (Some p1) (with_now (now w + ms) w)) p1)
      as (p' & Hp' & Hlogs & Hprog); [done|..].
    + unfold streaming, stream in *. simpl. by rewrite Hv in Hs.
    + done.
    + simpl. intros d Hd'. specialize (Ht d Hd'). lia.
    + exists p'. split; [done|]. split.
      * rewrite Hlogs. simpl. by rewrite <- app_assoc.
      * rewrite Hprog, last_cons. simpl. by destruct (last frames) as [[]|].
Qed.

(** C5 (amended). After a sequence of [progress] (or [status]) events whose
    stages are ones that render, the progress kept by the view, which is
    the width of the bar, is the progress value of the latest event; the
    percentage shown as text is that value rounded to the nearest integer,
    hence the value itself when it is an integer; and the log has gained
    exactly one entry per event, in the order of arrival. The events may be
    spaced in time, as long as no completion timer falls due meanwhile. *)
Theorem progress_events_are_displayed
    (w : World) (p : ProgressView) (frames : list (N * ProgressUpdate)) :
  view w = Some p → streaming w →
  Forall (λ f, is_update f.2 ∧ data_stage f.2 ≠ Some "__proto__") frames →
  (∀ d, d ∈ timers w → (now w + total_delay frames < d)%N) →
  ∃ p', view (run w (arrivals frames)) = Some p'
    ∧ logs p' = logs p ++ stamped (now w) frames
    ∧ length (stamped (now w) frames) = length frames
    ∧ (∀ ms data v, last frames = Some (ms, data) →
         data_progress data = Some v →
         bar_width p' == v
         ∧ displayed_percentage p' = Math_round v
         ∧ (∀ n : Z, v == inject_Z n → displayed_percentage p' = n)).
Proof.
  intros Hv Hs Hf Ht.
  destruct (progress_events_run frames w p Hv Hs Hf Ht) as (p' & Hp' & Hl & Hpr).
  exists p'. split; [done|]. split; [done|]. split.
  - clear. generalize (now w). induction frames as [|[] ? IH]; intros t; simpl; auto.
  - intros ms data v Hlast Hv'. rewrite Hlast, Hv' in Hpr.
    assert (Heq : progress p' == v) by (rewrite Hpr; apply or_number_Some).
    split; [done|].
    assert (Hround : displayed_percentage p' = Math_round v).
    { unfold displayed_percentage, Math_round. apply Qfloor_comp. by rewrite Heq. }
    split; [done|]. intros n Hn. rewrite Hround. by apply Math_round_integer.
Qed.

(** *** Error events *)

Lemma streaming_mounted w : streaming w → is_Some (view w).
Proof. intros [p Hp]%stream_Some. eauto. Qed.

(** The handler of frames touches neither the sockets nor the socket that
    the view holds. *)
Lemma stream_onmessage payload w : stream (onmessage payload w) = stream w.
Proof.
  unfold onmessage, stream, addLog, setTimeout_onComplete.
  destruct payload as [m| |data]; try done.
  repeat case_match; simpl; try done; by destruct (view w).
Qed.

(** Frames other than [error] ones and than those that break the render
    leave the view shell and the connection as they are, and may only add a
    timer, due in 1500 ms. *)
Lemma step_frame_quiet w payload :
  (∀ p, view w = Some p → render_throws p = false) →
  streaming w → kind payload ≠ Some "error" → ¬ breaks_render payload →
  let w' := step w (ws_message payload) in
  home w' = home w ∧ streaming w' ∧ now w' = now w
  ∧ (timers w' = timers w ∨ timers w' = timers w ++ [(now w + 1500)%N]).
Proof.
  intros Hr Hs Hk Hb. simpl. rewrite Hs.
  assert (Hh : home (onmessage payload w) = home w).
  { unfold onmessage. destruct payload as [m| |data]; try done.
    simpl in Hk. repeat case_match; try done.
    by match goal with H : bool_decide _ = true |- _ =>
         apply bool_decide_eq_true in H end. }
  rewrite react_rendered by (done || by apply onmessage_renders).
  split; [done|]. split; [unfold streaming; by rewrite stream_onmessage|].
  unfold onmessage. destruct payload as [m| |data]; simpl; auto.
  repeat case_match; simpl; auto.
Qed.

(** A delivered [error] event: the error view with the event's message, or
    the fallback when the message is empty or missing, and the progress
    view is unmounted. *)
Lemma step_error w data :
  wf w → streaming w → data_type data = Some "error" →
  let w1 := step w (ws_message (JSON_object data)) in
  home w1 = {| currentView := Error; taskId := taskId (home w);
               error := Some (or_string (data_message data) "An error occurred") |}
  ∧ view w1 = None.
Proof.
  intros Hwf Hs Hd w1.
  assert (Hh : home w1 = handleError
            (or_string (data_message data) "An error occurred") (home w)).
  { unfold w1. simpl. rewrite Hs, home_react.
    unfold onmessage. by rewrite Hd. }
  split; [done|].
  apply mounted_view_unmounted_by; [by apply step_wf|]. by rewrite Hh.
Qed.

(** Once no view is mounted, the events of the stream fall on no listener. *)
Lemma unmounted_ignores_stream w post :
  view w = None → Forall stream_event post → run w post = w.
Proof.
  intros Hv Hpost. induction Hpost as [|e post He _ IH]; [done|].
  rewrite run_cons.
  assert (step w e = w) as ->; [|done].
  destruct e; try done; simpl; unfold stream; by rewrite Hv.
Qed.

(** C2 (amended). An [error] event that the open stream delivers, whatever
    the events that came before it, moves the client to the error view
    carrying the event's message, or ["An error occurred"] when that message
    is empty or missing; the progress view is unmounted and its connection
    closed, and no event of the stream changes anything afterwards. *)
Theorem error_event_ends_stream
    (prior : list Event) (data : ProgressUpdate) (post : list Event) :
  let w := run World_initial prior in
  let w1 := step w (ws_message (JSON_object data)) in
  streaming w →
  data_type data = Some "error" →
  Forall stream_event post →
  home w1 = {| currentView := Error; taskId := taskId (home w);
               error := Some (or_string (data_message data) "An error occurred") |}
  ∧ view w1 = None
  ∧ open_connections w1 = []
  ∧ run w1 post = w1.
Proof.
  intros w w1 Hs Hd Hpost.
  assert (Hwf : wf w) by apply reachable_wf.
  destruct (step_error w data Hwf Hs Hd) as [Hh Hv]. fold w1 in Hh, Hv.
  split; [done|]. split; [done|]. split.
  - apply unmounted_no_connection; [by apply step_wf|done].
  - by apply unmounted_ignores_stream.
Qed.

(** X5. A failure of the channel itself, as opposed to an [error] frame,
    moves the client to the error view with a fixed message on the
    connection; the progress view is unmounted and no connection stays
    open. *)
Theorem channel_error_goes_to_error (prior : list Event) :
  let w := run World_initial prior in
  let w1 := step w ws_error in
  streaming w →
  home w1 = {| currentView := Error; taskId := taskId (home w);
               error := Some "Connection error. Please refresh and try again." |}
  ∧ view w1 = None
  ∧ open_connections w1 = [].
Proof.
  intros w w1 Hs.
  assert (Hwf1 : wf w1) by apply step_wf, reachable_wf.
  destruct (stream_Some _ _ Hs) as [p Hp].
  assert (Hh : home w1 = handleError
            "Connection error. Please refresh and try again." (home w)).
  { unfold w1. simpl. rewrite Hp, Hs. by rewrite home_react. }
  assert (Hv : view w1 = None).
  { apply mounted_view_unmounted_by; [done|]. by rewrite Hh. }
  split; [done|]. split; [done|]. by apply unmounted_no_connection.
Qed.

(** *** The final event *)

Lemma set_home_id f w : f (home w) = home w → set_home f w = w.
Proof. destruct w. unfold set_home. simpl. by intros ->. Qed.

Lemma handleComplete_Results h :
  currentView h = Results → handleComplete h = h.
Proof. destruct h. unfold handleComplete. simpl. by intros ->. Qed.

Lemma timer_fires_completed w : completed w → timer_fires w = w.
Proof.
  intros [Hc _]. unfold timer_fires. destruct (crashed w); [done|].
  rewrite react_same; rewrite set_home_id; auto using handleComplete_Results.
Qed.

Lemma mounted_not_crashed w : wf w → is_Some (view w) → crashed w = false.
Proof. intros [Hm _] Hv. by apply Hm in Hv as [? _]. Qed.

(** The first timer that fires ends the progress view. *)
Lemma timer_fires_completes w :
  wf w → crashed w = false → completed (timer_fires w).
Proof.
  intros Hwf Hc.
  assert (Hh : home (timer_fires w) = handleComplete (home w)).
  { unfold timer_fires. rewrite Hc. by rewrite home_react. }
  split; [by rewrite Hh|].
  apply mounted_view_unmounted_by; [by apply timer_fires_wf|]. by rewrite Hh.
Qed.

Lemma fires_completed w (due : list N) :
  wf w → crashed w = false → due ≠ [] →
  completed (foldr (λ _, timer_fires) w due).
Proof.
  intros Hwf Hc. induction due as [|d due IH]; [done|]. intros _. simpl.
  destruct due as [|d' due]; [by apply timer_fires_completes|].
  by rewrite timer_fires_completed; apply IH.
Qed.

Lemma completed_fires w (due : list N) :
  completed w → foldr (λ _, timer_fires) w due = w.
Proof.
  intros H. induction due as [|d due IH]; simpl; [done|].
  by rewrite IH, timer_fires_completed.
Qed.

Lemma elapse_completed ms w : completed w → completed (elapse ms w).
Proof.
  intros [Hc Hv]. unfold elapse. by rewrite completed_fires by by split.
Qed.

Lemma quiet_completed w e : completed w → quiet e → completed (step w e).
Proof.
  intros H He. destruct e as [ms| | |payload| | |]; try done; simpl.
  - by apply elapse_completed.
  - destruct H as [Hc Hv]. unfold stream. rewrite Hv. by split.
  - destruct H as [Hc Hv]. rewrite Hv. by split.
Qed.

(** Time passing either fires no timer, or completes the run. *)
Lemma elapse_cases ms w :
  wf w → crashed w = false →
  ((∀ d, d ∈ timers w → (now w + ms < d)%N)
   ∧ elapse ms w = with_now (now w + ms) w)
  ∨ ((∃ d, d ∈ timers w ∧ (d ≤ now w + ms)%N) ∧ completed (elapse ms w)).
Proof.
  intros Hwf Hcr.
  destruct (decide (Forall (λ d, (now w + ms < d)%N) (timers w))) as [Hall|Hex].
  - left. rewrite Forall_forall in Hall. split; [done|]. by apply elapse_idle.
  - right. apply not_Forall_Exists in Hex; [|apply _].
    apply Exists_exists in Hex as (d & Hd & Hlt). simpl in Hlt.
    split; [exists d; split; [done|lia]|].
    unfold elapse. apply fires_completed.
    + destruct Hwf as (Hm & [Hws Hso Hti] & Hr). split; [done|]. split; [|done].
      split; simpl; [done..|]. by intros d' [? _]%list_elem_of_filter.
    + done.
    + intros Hnil. eapply (filter_nil_not_elem_of _ _ d); [done| |done].
      simpl. lia.
Qed.

(** A quiet event of the stream leaves the view shell and the mounted view
    in place, and may only add a timer, due in 1500 ms. *)
Lemma step_quiet w e :
  wf w → is_Some (view w) → quiet e → stream_event e →
  let w' := step w e in
  home w' = home w ∧ is_Some (view w') ∧ now w' = now w
  ∧ (timers w' = timers w ∨ timers w' = timers w ++ [(now w + 1500)%N]).
Proof.
  intros Hwf Hv Hq He. destruct e as [ms| | |payload| | |]; try done.
  - destruct Hq as [Hk Hb].
    destruct (decide (streaming w)) as [Hs|Hs].
    + destruct (step_frame_quiet w payload) as (? & ? & ? & ?);
        [by destruct Hwf as (_ & _ & [? _])|done..|].
      auto using streaming_mounted.
    + simpl. unfold streaming in Hs.
      destruct (stream w) as [[]|]; try done; auto.
  - simpl. destruct Hv as [p Hp]. rewrite Hp.
    destruct (stream w) as [[]|]; simpl; rewrite ?Hp; eauto.
Qed.

(** The run after a [final] event, as long as it is quiet: the view shell
    stays on the progress view, with the completion timer [D] pending, up to
    the moment a timer falls due; from then on it shows the results. [F] is
    a time before which no timer is due. *)
Lemma views_cons w e es :
  views w (e :: es) = currentView (home w) :: views (step w e) es.
Proof. reflexivity. Qed.

Lemma quiet_run (D F : N) (post : list Event) : ∀ w,
  wf w → is_Some (view w) → D ∈ timers w → (∀ d, d ∈ timers w → (F ≤ d)%N) →
  (F ≤ now w + 1500)%N →
  Forall quiet post →
  ∃ k m,
    views w post = replicate (S k) Progress ++ replicate m Results
    ∧ ((m = 0%nat ∧ currentView (home (run w post)) = Progress
        ∧ (now w + elapsed post < D)%N)
       ∨ (m ≠ 0%nat ∧ completed (run w post)
          ∧ (F ≤ now w + elapsed post)%N)).
Proof.
  induction post as [|e post IH]; intros w Hwf Hs HD HF HF' Hq.
  - exists 0%nat, 0%nat. simpl. split.
    + f_equal. by apply mounted_in_progress.
    + left. split; [done|]. split.
      * by apply mounted_in_progress.
      * destruct Hwf as (_ & [_ _ Hti] & _). specialize (Hti D HD). lia.
  - apply Forall_cons in Hq as [He Hq].
    assert (Hp : currentView (home w) = Progress)
      by by apply mounted_in_progress.
    assert (Hcompleted : ∀ w', completed w' → Forall quiet post →
              views w' post = replicate (S (length post)) Results
              ∧ completed (run w' post)).
    { clear. intros w' Hc Hq. revert w' Hc.
      induction Hq as [|e post He _ IH]; intros w' Hc.
      - split; [|done]. simpl. by destruct Hc as [-> _].
      - destruct (IH (step w' e)) as [Hv Hr]; [by apply quiet_completed|].
        split; [|done]. rewrite views_cons, Hv. by destruct Hc as [-> _]. }
    assert (Hstream : stream_event e → ∃ k m,
      views w (e :: post) = replicate (S k) Progress ++ replicate m Results
      ∧ (m = 0%nat ∧ currentView (home (run w (e :: post))) = Progress
         ∧ (now w + elapsed post < D)%N
         ∨ m ≠ 0%nat ∧ completed (run w (e :: post))
           ∧ (F ≤ now w + elapsed post)%N)).
    { intros Hse.
      destruct (step_quiet w e Hwf Hs He Hse) as (Hh & Hs' & Hnow & Hti).
      destruct (IH (step w e)) as (k & m & Hv & Hend).
      * by apply step_wf.
      * done.
      * destruct Hti as [-> | ->]; [done|]. apply elem_of_app. by left.
      * intros d. destruct Hti as [-> | ->]; [by apply HF|].
        intros [?| ->%list_elem_of_singleton]%elem_of_app; [by apply HF|done].
      * rewrite Hnow. done.
      * done.
      * exists (S k), m. split; [by rewrite views_cons, Hv, Hp|].
        rewrite run_cons. revert Hend. rewrite Hnow. tauto. }
    destruct e as [ms| | |payload| | |]; try done; [|by apply Hstream..].
    (* time passes *)
    destruct (elapse_cases ms w Hwf (mounted_not_crashed w Hwf Hs))
      as [[Hidle Heq]|[(d & Hd & Hle) Hc]].
    * destruct (IH (step w (Elapse ms))) as (k & m & Hv & Hend).
      -- by apply step_wf.
      -- simpl. by rewrite Heq.
      -- simpl. by rewrite Heq.
      -- simpl. by rewrite Heq.
      -- simpl. rewrite Heq. simpl. lia.
      -- done.
      -- exists (S k), m. split; [by rewrite views_cons, Hv, Hp|].
         rewrite run_cons. revert Hend. simpl. rewrite Heq. simpl.
         intros [(? & ? & ?)|(? & ? & ?)]; [left|right];
           (split; [done|split; [done|lia]]).
    * destruct (Hcompleted (step w (Elapse ms))) as [Hv Hr]; [done..|].
      exists 0%nat, (S (length post)). split; [by rewrite views_cons, Hv, Hp|].
      right. split; [done|]. split; [done|].
      simpl. specialize (HF d Hd). lia.
Qed.

Lemma transitions_settled k m :
  transitions Progress Results (replicate (S k) Progress ++ replicate m Results)
  = if decide (m = 0%nat) then 0%nat else 1%nat.
Proof.
  induction k as [|k IH].
  - destruct m as [|m]; [done|]. simpl.
    induction m as [|m IH]; [done|]. done.
  - exact IH.
Qed.

(** What a delivered [final] event does. *)
Lemma step_final w p data :
  view w = Some p → streaming w → data_type data = Some "final" →
  step w (ws_message (JSON_object data)) =
    set_timers (λ pending, pending ++ [(now w + 1500)%N])
      (with_view
         (Some {| progress := 100; stage := "completed";
                  message := "Your pitch deck has been successfully generated!";
                  logs := logs p ++ [log_entry (now w) "Pipeline complete!"];
                  ws := ws p |}) w).
Proof.
  intros Hv Hs Hd. simpl. rewrite Hs.
  assert (Hon : onmessage (JSON_object data) w =
    setTimeout_onComplete
      (addLog "Pipeline complete!"
      (set_view (setMessage "Your pitch deck has been successfully generated!")
      (set_view (setStage "completed")
      (set_view (setProgress 100) w))))).
  { unfold onmessage. by rewrite Hd. }
  rewrite react_rendered; rewrite Hon; [|done|].
  - unfold setTimeout_onComplete, addLog, set_view, set_timers, with_view. simpl.
    by rewrite Hv.
  - simpl. rewrite Hv. intros ? [= <-].
    destruct (render_throws _) eqn:Ht; [|done].
    by apply render_throws_stage in Ht.
Qed.

(** C1 (amended). A [final] event that is delivered, whatever came before
    it, sets the displayed progress to 100 and the stage to [completed],
    adds one completion line to the log and sets one timer, due 1500 ms
    later. If afterwards only time passes, the connection is closed from
    outside, or frames arrive that are neither [error] ones nor updates
    whose stage is ["__proto__"], which the view cannot render, then the
    view shell goes from the progress view to the results view at most once
    and nowhere else; it has done so, exactly once, when 1500 ms have
    passed, and the connection is closed then. When no earlier timer was
    pending, it does not do so before. *)
Theorem final_event_completes
    (prior : list Event) (data : ProgressUpdate) (post : list Event) :
  let w := run World_initial prior in
  let w1 := step w (ws_message (JSON_object data)) in
  streaming w → data_type data = Some "final" → Forall quiet post →
  (∃ p p1, view w = Some p ∧ view w1 = Some p1
     ∧ progress p1 = 100%Q ∧ displayed_percentage p1 = 100
     ∧ stage p1 = "completed" ∧ displayed_stage p1 = js_string "Completed!"
     ∧ logs p1 = logs p ++ [log_entry (now w) "Pipeline complete!"])
  ∧ home w1 = home w
  ∧ currentView (home w1) = Progress
  ∧ timers w1 = timers w ++ [(now w + 1500)%N]
  ∧ (∃ k m, views w1 post = replicate (S k) Progress ++ replicate m Results)
  ∧ (transitions Progress Results (views w1 post) ≤ 1)%nat
  ∧ ((1500 ≤ elapsed post)%N →
       currentView (home (run w1 post)) = Results
       ∧ transitions Progress Results (views w1 post) = 1%nat
       ∧ open_connections (run w1 post) = [])
  ∧ (timers w = [] → (elapsed post < 1500)%N →
       currentView (home (run w1 post)) = Progress
       ∧ transitions Progress Results (views w1 post) = 0%nat).
Proof.
  intros w w1 Hs Hd Hq.
  assert (Hwf : wf w) by apply reachable_wf.
  assert (Hwf1 : wf w1) by by apply step_wf.
  destruct (stream_Some _ _ Hs) as [p Hp].
  pose proof (step_final w p data Hp Hs Hd) as Hw1. fold w1 in Hw1.
  assert (Hs1 : streaming w1).
  { rewrite Hw1. unfold streaming, stream in *. simpl. by rewrite Hp in Hs. }
  assert (Hnow : now w1 = now w) by by rewrite Hw1.
  assert (Hti : timers w1 = timers w ++ [(now w + 1500)%N]) by by rewrite Hw1.
  assert (HD : (now w + 1500)%N ∈ timers w1).
  { rewrite Hti. apply elem_of_app. right. by apply list_elem_of_singleton. }
  split.
  { exists p. eexists. split; [done|]. split; [by rewrite Hw1|]. done. }
  split; [by rewrite Hw1|].
  split; [by apply mounted_in_progress, streaming_mounted|].
  split; [done|].
  assert (Hm1 : is_Some (view w1)) by by apply streaming_mounted.
  destruct (quiet_run (now w + 1500) 0 post w1) as (k & m & Hv & Hend);
    [done|done|done|intros; lia|lia|done|].
  rewrite Hnow in Hend.
  split; [eauto|]. rewrite Hv, transitions_settled.
  split; [case_decide; lia|]. split.
  - intros Hlong. destruct Hend as [(_ & _ & ?)|(Hm & [Hc Hview] & _)]; [lia|].
    split; [done|]. split; [by rewrite decide_False|].
    by apply unmounted_no_connection; [apply run_wf|].
  - intros Hnone Hshort.
    destruct (quiet_run (now w + 1500) (now w + 1500) post w1)
      as (k' & m' & Hv' & Hend'); [done|done|done| |lia|done|].
    { rewrite Hti, Hnone. intros d ->%list_elem_of_singleton. lia. }
    rewrite Hnow in Hend'.
    destruct Hend' as [(-> & ? & _)|(_ & _ & ?)]; [|lia].
    split; [done|].
    rewrite Hv in Hv'.
    assert (m = 0%nat) as ->; [|done].
    apply (f_equal length) in Hv'.
    rewrite !length_app, !length_replicate in Hv'. simpl in Hv'.
    destruct Hend as [(-> & _)|(? & [Hc _] & _)]; [done|]. congruence.
Qed.

(** *** Outcomes of a submission *)

Lemma input_view_unmounted w :
  wf w → currentView (home w) = Input → view w = None.
Proof.
  intros Hwf Hin. apply mounted_view_unmounted_by; [done|].
  unfold renders_ProgressView. by rewrite Hin.
Qed.

(** A view that was just mounted renders. *)
Lemma render_throws_initial n : render_throws (ProgressView_initial n) = false.
Proof.
  destruct (render_throws _) eqn:Ht; [|done]. by apply render_throws_stage in Ht.
Qed.

(** With no view mounted before the handler nor after it, what follows the
    handler is React's commit. *)
Lemma react_unmounted handler w :
  view (handler w) = None → react handler w = commit (home w) (handler w).
Proof.
  intros Hv. unfold react.
  destruct (view (commit (home w) (handler w))) as [p|] eqn:Hc;
    [|by apply render_idle].
  apply (render_rendered _ _ p); [done|].
  revert Hc. unfold commit. rewrite Hv.
  repeat case_match; simpl; try congruence.
  intros [= <-]. apply render_throws_initial.
Qed.

(** The world after a submission, from the callback it ends with. *)
Lemma step_submit w input b issued c :
  currentView (home w) = Input → view w = None →
  handleSubmit b input = (issued, c) →
  step w (Submit input b) =
    commit (home w)
      (set_home (run_callback c) (with_network (network w ++ issued) w)).
Proof.
  intros Hin Hv Hsub. simpl. unfold renders_IdeaForm.
  rewrite bool_decide_eq_true_2 by done.
  unfold submit. rewrite react_unmounted; by rewrite Hsub.
Qed.


(** *** What the handlers do to [Home] *)

Local Abbreviation live := (live location_protocol).

Lemma home_timer_fires w :
  home (timer_fires w) = home w ∨ home (timer_fires w) = handleComplete (home w).
Proof.
  unfold timer_fires. destruct (crashed w); [by left|]. right.
  by rewrite home_react.
Qed.

Lemma handleComplete_idemp h : handleComplete (handleComplete h) = handleComplete h.
Proof. done. Qed.

Lemma home_fires w (due : list N) :
  home (foldr (λ _, timer_fires) w due) = home w
  ∨ home (foldr (λ _, timer_fires) w due) = handleComplete (home w).
Proof.
  induction due as [|d due IH]; simpl; [by left|].
  destruct (home_timer_fires (foldr (λ _, timer_fires) w due)) as [-> | ->];
    [done|].
  right. by destruct IH as [-> | ->].
Qed.

Lemma home_elapse ms w :
  home (elapse ms w) = home w ∨ home (elapse ms w) = handleComplete (home w).
Proof.
  unfold elapse.
  match goal with
  | |- context [foldr _ ?w' ?due] => destruct (home_fires w' due) as [H|H]
  end; rewrite H; auto.
Qed.

Lemma home_onmessage payload w :
  home (onmessage payload w) = home w
  ∨ kind payload = Some "error"
    ∧ ∃ m, home (onmessage payload w) = handleError m (home w).
Proof.
  unfold onmessage. destruct payload as [m| |data]; simpl; auto.
  repeat case_bool_decide; simpl; eauto.
Qed.

(** Every event leaves [Home] as it was or applies one of its handlers. *)
Lemma home_step w e :
  home (step w e) = home w
  ∨ home (step w e) = handleComplete (home w)
  ∨ (∃ c, home (step w e) = run_callback c (home w))
  ∨ home (step w e) = handleReset (home w).
Proof.
  destruct e as [ms|input b| |payload| | |]; simpl.
  - destruct (home_elapse ms w); auto.
  - destruct (renders_IdeaForm _); [|by left].
    unfold submit. rewrite home_react.
    destruct (handleSubmit b input) as [issued c]. simpl. eauto.
  - destruct (view w), (stream w) as [[]|]; auto.
    rewrite home_react. by left.
  - destruct (stream w) as [[]|]; auto.
    rewrite home_react.
    destruct (home_onmessage payload w) as [|[_ [m Hm]]]; [by left|].
    right. right. left. by exists (onError m).
  - destruct (view w), (stream w) as [[]|]; auto.
    all: rewrite home_react; right; right; left.
    all: by exists (onError "Connection error. Please refresh and try again.").
  - destruct (view w), (stream w) as [[]|]; auto.
  - destruct (_ || _); [|by left].
    unfold reset. rewrite home_react. auto.
Qed.

Lemma home_ok_step w e : home_ok (home w) → home_ok (home (step w e)).
Proof.
  intros H.
  destruct (home_step w e) as [->|[->|[[c ->]| ->]]]; [done|done| |done].
  destruct c; simpl; unfold home_ok; simpl; eauto.
Qed.

Lemma home_ok_run es : ∀ w, home_ok (home w) → home_ok (home (run w es)).
Proof. induction es as [|e es IH]; intros w H; simpl; auto using home_ok_step. Qed.

Lemma reachable_home_ok es : home_ok (home (run World_initial es)).
Proof. by apply home_ok_run. Qed.

(** X10. Wherever the client gets, the input view has neither a task
    identifier nor an error message, the progress view has no error
    message, and the error view has an error message set. *)
Theorem home_state_is_consistent (prior : list Event) :
  let h := home (run World_initial prior) in
  match currentView h with
  | Input => taskId h = None ∧ error h = None
  | Progress => error h = None
  | Results => True
  | Error => ∃ m, error h = Some m
  end.
Proof.
  intros h. pose proof (reachable_home_ok prior) as H. fold h in H.
  unfold home_ok in H. by destruct (currentView h).
Qed.

(** *** Frames of other kinds *)

(** X11. A frame that parses to an object whose [type] is missing, or is
    none of [progress], [status], [final] and [error], is ignored: the
    client is exactly as it was, and nothing is written to the console. *)
Theorem unknown_kind_is_ignored (w : World) (data : ProgressUpdate) :
  data_type data ∉ handled_kinds →
  step w (ws_message (JSON_object data)) = w.
Proof.
  intros H. simpl. destruct (stream w) as [[]|]; try done.
  assert (Hw : onmessage (JSON_object data) w = w).
  { unfold onmessage, handled_kinds in *.
    repeat case_bool_decide; simpl; try done; exfalso; apply H; set_solver. }
  rewrite react_same; by rewrite Hw.
Qed.

(** *** Timers *)

Lemma timers_commit before w : timers (commit before w) = timers w.
Proof.
  unfold commit. destruct (decide _); [done|].
  by destruct (view w), (renders_ProgressView (home w)).
Qed.

Lemma timers_react handler w : timers (react handler w) = timers (handler w).
Proof. unfold react. by rewrite timers_render, timers_commit. Qed.

Lemma timers_fires w (due : list N) :
  timers (foldr (λ _, timer_fires) w due) = timers w.
Proof.
  induction due as [|d due IH]; simpl; [done|].
  unfold timer_fires. destruct (crashed _); [done|]. by rewrite timers_react.
Qed.

(** X12. A completion timer is set by a [final] frame that the open stream
    delivers and by nothing else, and a timer goes only by firing when it
    is due: no other event adds or removes one -- a reset, an error and the
    unmounting of the progress view leave the pending timers as they are. *)
Theorem timers_set_by_final_only (w : World) (e : Event) :
  timers (step w e) =
    match e with
    | Elapse ms => filter (λ d, (now w + ms < d)%N) (timers w)
    | ws_message (JSON_object data) =>
        if bool_decide (stream w = Some OPEN ∧ data_type data = Some "final")
        then timers w ++ [(now w + 1500)%N]
        else timers w
    | _ => timers w
    end.
Proof.
  destruct e as [ms|input b| |payload| | |]; simpl.
  - unfold elapse. by rewrite timers_fires.
  - destruct (renders_IdeaForm _); [|done].
    unfold submit. rewrite timers_react.
    by destruct (handleSubmit b input).
  - destruct (view w), (stream w) as [[]|]; try done.
    by rewrite timers_react.
  - destruct payload as [m| |data].
    + destruct (stream w) as [[]|]; try done.
      by rewrite timers_react.
    + destruct (stream w) as [[]|]; try done.
      by rewrite timers_react.
    + destruct (stream w) as [[]|] eqn:Hs;
        try (rewrite bool_decide_eq_false_2; [done|by intros [? _]]).
      rewrite timers_react. unfold onmessage.
      destruct (decide (data_type data = Some "final")) as [Hf|Hf].
      * rewrite Hf. by rewrite (bool_decide_eq_true_2 (_ ∧ _)) by done.
      * rewrite (bool_decide_eq_false_2 (_ ∧ _)) by (by intros [_ ?]).
        by repeat case_bool_decide.
  - destruct (view w), (stream w) as [[]|]; try done.
    all: by rewrite timers_react.
  - by destruct (view w), (stream w) as [[]|].
  - destruct (_ || _); [|done].
    unfold reset. by rewrite timers_react.
Qed.

(** *** The connection of the mounted view *)

Lemma commit_live before w : (home w = before → live w) → live (commit before w).
Proof.
  intros H. unfold commit. destruct (decide _) as [Heq|Hne]; [auto|].
  destruct (view w) as [p|] eqn:Hv, (renders_ProgressView (home w)).
  - intros p' Hp'. simplify_eq/=. eexists. split.
    + rewrite lookup_app_r by (unfold close; by rewrite length_alter).
      unfold close. by rewrite length_alter, Nat.sub_diag.
    + done.
  - by intros ? [=].
  - intros p' Hp'. simplify_eq/=. eexists. split.
    + rewrite lookup_app_r by done. by rewrite Nat.sub_diag.
    + done.
  - intros ? Hp. congruence.
Qed.

Lemma render_live v w : live w → live (render v w).
Proof.
  intros H. unfold render. by repeat case_match.
Qed.

Lemma react_live handler w :
  (home (handler w) = home w → live (handler w)) → live (react handler w).
Proof. intros H. unfold react. by apply render_live, commit_live. Qed.

Lemma live_same w w' :
  view w' = view w → sockets w' = sockets w →
  taskId (home w') = taskId (home w) → live w → live w'.
Proof. unfold live. intros -> -> ->. done. Qed.

Lemma live_set_view f w : (∀ p, ws (f p) = ws p) → live w → live (set_view f w).
Proof.
  intros Hf H p' Hp'. simpl in *.
  destruct (view w) as [p|] eqn:Hv; simplify_eq/=. rewrite Hf. by apply H.
Qed.

Lemma live_set_timers f w : live w → live (set_timers f w).
Proof. done. Qed.

Lemma live_console_write line w : live w → live (console_write line w).
Proof. done. Qed.

Lemma live_handleError m w : live w → live (set_home (handleError m) w).
Proof. done. Qed.

Lemma live_onmessage payload w : live w → live (onmessage payload w).
Proof.
  intros H. unfold onmessage, addLog, setTimeout_onComplete.
  destruct payload as [m| |data]; try by apply live_console_write.
  repeat case_match;
    repeat first [ apply live_set_timers | apply live_handleError
                 | apply live_set_view; [done|] ]; done.
Qed.

Lemma live_alter_OPEN w p :
  view w = Some p → live w →
  live (set_sockets (alter (set_readyState OPEN) (ws p)) w).
Proof.
  intros Hv H p' Hp'. simpl in *. simplify_eq.
  destruct (H p Hv) as (c & Hc & Hurl).
  exists (set_readyState OPEN c). rewrite list_lookup_alter_eq, Hc. done.
Qed.

Lemma live_close w i : live w → live (set_sockets (close i) w).
Proof.
  intros H p Hp. simpl in *. destruct (H p Hp) as (c & Hc & Hurl).
  unfold close. destruct (decide (i = ws p)) as [->|Hne].
  - exists (set_readyState CLOSED c). by rewrite list_lookup_alter_eq, Hc.
  - exists c. by rewrite list_lookup_alter_ne.
Qed.

Lemma step_live w e : wf w → live w → live (step w e).
Proof.
  intros Hwf H. destruct e as [ms|input b| |payload| | |]; simpl.
  - unfold elapse. set (w' := with_now _ _).
    assert (Hw' : live w') by done. clearbody w'.
    induction (filter _ (timers w)) as [|d due IH]; [done|].
    simpl. unfold timer_fires. destruct (crashed _); [done|].
    apply react_live. intros _.
    by apply (live_same (foldr (λ _, timer_fires) w' due)).
  - destruct (renders_IdeaForm _); [|done].
    apply react_live. destruct (handleSubmit b input) as [issued c].
    intros Heq. by apply (live_same w); [..|rewrite Heq|].
  - destruct (view w) as [p|] eqn:Hv; [|done].
    destruct (stream w) as [[]|]; try done.
    apply react_live. intros _. unfold onopen, addLog.
    apply live_set_view; [done|].
    by apply (live_same (set_sockets (alter (set_readyState OPEN) (ws p)) w));
      [..|apply live_alter_OPEN].
  - destruct (stream w) as [[]|]; try done.
    apply react_live. intros _. by apply live_onmessage.
  - destruct (view w) as [p|] eqn:Hv; [|done].
    assert (currentView (home w) = Progress) as Hp
      by (apply mounted_in_progress; [done|by rewrite Hv]).
    destruct (stream w) as [[]|]; try done.
    all: apply react_live; simpl; intros Heq.
    all: apply (f_equal currentView) in Heq; simpl in Heq; congruence.
  - destruct (view w) as [p|] eqn:Hv; [|done].
    destruct (stream w) as [[]|]; try done; by apply live_close.
  - destruct (_ || _); [|done].
    apply react_live. intros Heq. by apply (live_same w); [..|rewrite Heq|].
Qed.

Lemma run_live es : ∀ w, wf w → live w → live (run w es).
Proof.
  induction es as [|e es IH]; intros w Hwf H; simpl; [done|].
  apply IH; [by apply step_wf|by apply step_live].
Qed.

Lemma reachable_live es : live (run World_initial es).
Proof. apply run_live; [apply wf_initial|done]. Qed.

Lemma filter_single {A} (P : A → Prop) `{!∀ x, Decision (P x)} (l : list A) :
  ∀ i c, l !! i = Some c → P c →
    (∀ j c', l !! j = Some c' → P c' → j = i) → filter P l = [c].
Proof.
  induction l as [|x l IH]; intros i c Hi Hc Hl; [done|].
  destruct i as [|i]; simplify_eq/=.
  - rewrite filter_cons_True by done. f_equal. apply filter_none.
    intros y [j Hj]%list_elem_of_lookup Hy. by specialize (Hl (S j) y Hj Hy).
  - rewrite filter_cons_False.
    + apply (IH i); [done..|]. intros j c' Hj Hc'.
      specialize (Hl (S j) c' Hj Hc'). lia.
    + intros Hx. by specialize (Hl 0%nat x eq_refl Hx).
Qed.

(** X13. Wherever the client gets, a mounted progress view holds a
    connection whose URL is the progress URL of the current task
    identifier, which is not empty. No other connection is connecting or
    open: the connections that are not closed are that one, unless it has
    been closed from outside, and none when no progress view is mounted. *)
Theorem mounted_view_has_the_live_connection (prior : list Event) :
  let w := run World_initial prior in
  match view w with
  | Some p =>
      ∃ c, sockets w !! ws p = Some c
           ∧ url c = wsUrl location_protocol (taskId (home w))
           ∧ truthy (taskId (home w)) = true
           ∧ open_connections w =
               if decide (readyState c = CLOSED) then [] else [c]
  | None => open_connections w = []
  end.
Proof.
  intros w. pose proof (reachable_wf prior) as Hwf. fold w in Hwf.
  pose proof (reachable_live prior) as Hlive. fold w in Hlive.
  destruct (view w) as [p|] eqn:Hv; [|by apply unmounted_no_connection].
  destruct (Hlive p Hv) as (c & Hc & Hurl).
  exists c. split; [done|]. split; [done|].
  destruct Hwf as (Hm & [_ Hso _] & _). split.
  { assert (renders_ProgressView (home w) = true) as Hr
      by (apply Hm; by rewrite Hv).
    unfold renders_ProgressView in Hr. by apply andb_prop in Hr as [_ ?]. }
  assert (Hone : ∀ j c', sockets w !! j = Some c' → readyState c' ≠ CLOSED →
                   j = ws p).
  { intros j c' Hj Hc'. destruct (Hso j c' Hj Hc') as (p' & Hp' & <-).
    congruence. }
  destruct (decide (readyState c = CLOSED)) as [Hclosed|Hopen].
  - apply filter_none. intros c' [j Hj]%list_elem_of_lookup Hc'.
    pose proof (Hone j c' Hj Hc') as ->. congruence.
  - by apply (filter_single _ _ (ws p)).
Qed.

(** *** From the final event to the results of the same task *)

Lemma quiet_keeps_task w e :
  quiet e →
  taskId (home (step w e)) = taskId (home w)
  ∧ error (home (step w e)) = error (home w).
Proof.
  destruct e as [ms|input b| |payload| | |]; try done; intros Hq.
  - change (step w (Elapse ms)) with (elapse ms w).
    by destruct (home_elapse ms w) as [-> | ->].
  - simpl. destruct (stream w) as [[]|]; try done.
    rewrite home_react. destruct Hq as [Hq _].
    by destruct (home_onmessage payload w) as [->|[? _]].
  - simpl. by destruct (view w), (stream w) as [[]|].
Qed.

Lemma quiet_run_keeps_task post : ∀ w,
  Forall quiet post →
  taskId (home (run w post)) = taskId (home w)
  ∧ error (home (run w post)) = error (home w).
Proof.
  induction post as [|e post IH]; intros w Hq; [done|].
  apply Forall_cons in Hq as [He Hq]. rewrite run_cons.
  destruct (IH (step w e) Hq) as [-> ->]. by apply quiet_keeps_task.
Qed.

(** X14. After a [final] event that the open stream delivers, once 1500 ms
    have passed with nothing but time, a close of the connection from
    outside, and frames that are neither [error] ones nor updates whose
    stage is ["__proto__"], the view shell is in the results view with the
    task identifier of the stream and no error message: [ResultsView] is
    rendered for the task whose progress was shown, and the progress view
    is gone. *)
Theorem results_are_for_the_streamed_task
    (prior : list Event) (data : ProgressUpdate) (post : list Event) :
  let w := run World_initial prior in
  let w2 := run (step w (ws_message (JSON_object data))) post in
  streaming w → data_type data = Some "final" → Forall quiet post →
  (1500 ≤ elapsed post)%N →
  home w2 = {| currentView := Results; taskId := taskId (home w); error := None |}
  ∧ truthy (taskId (home w)) = true
  ∧ renders_ResultsView (home w2) = true
  ∧ view w2 = None.
Proof.
  intros w w2 Hs Hd Hq Hlong.
  set (w1 := step w (ws_message (JSON_object data))) in *.
  assert (Hwf : wf w) by apply reachable_wf.
  assert (Hwf1 : wf w1) by by apply step_wf.
  destruct (stream_Some _ _ Hs) as [p Hp].
  pose proof (step_final w p data Hp Hs Hd) as Hw1. fold w1 in Hw1.
  assert (Hs1 : streaming w1).
  { rewrite Hw1. unfold streaming, stream in *. simpl. by rewrite Hp in Hs. }
  assert (Hnow : now w1 = now w) by by rewrite Hw1.
  assert (Hhome : home w1 = home w) by by rewrite Hw1.
  assert (HD : (now w + 1500)%N ∈ timers w1).
  { rewrite Hw1. simpl. apply elem_of_app. right. by apply list_elem_of_singleton. }
  assert (Hm1 : is_Some (view w1)) by by apply streaming_mounted.
  destruct (quiet_run (now w + 1500) 0 post w1) as (k & m & _ & Hend);
    [done|done|done|intros; lia|lia|done|].
  rewrite Hnow in Hend.
  destruct Hend as [(_ & _ & ?)|(_ & [Hres Hview] & _)]; [lia|]. fold w2 in Hres, Hview.
  destruct (quiet_run_keeps_task post w1 Hq) as [Htask Herr]. fold w2 in Htask, Herr.
  rewrite Hhome in Htask, Herr.
  assert (Hin : currentView (home w) = Progress)
    by by apply mounted_in_progress, streaming_mounted.
  pose proof (reachable_home_ok prior) as Hok. fold w in Hok.
  unfold home_ok in Hok. rewrite Hin in Hok.
  assert (Hid : truthy (taskId (home w)) = true).
  { destruct Hwf as [Hm _].
    assert (renders_ProgressView (home w) = true) as Hr
      by (apply Hm; by rewrite Hp).
    unfold renders_ProgressView in Hr. by apply andb_prop in Hr as [_ ?]. }
  assert (Hh2 : home w2 = {| currentView := Results; taskId := taskId (home w);
                             error := None |}).
  { destruct (home w2) as [cv t err]. simpl in *. congruence. }
  split; [done|]. split; [done|]. split; [|done].
  rewrite Hh2. unfold renders_ResultsView. simpl. by rewrite Hid.
Qed.

(** *** What the progress view always shows *)

Lemma or_string_nonempty v d : d ≠ "" → or_string v d ≠ "".
Proof. intros Hd. unfold or_string. by destruct v as [[|c s]|]. Qed.

Lemma view_ok_setLogs p line : view_ok p → view_ok (setLogs (λ prev, prev ++ [line]) p).
Proof.
  intros (Hs & Hm & Hl). split; [done|]. split; [done|]. simpl.
  by destruct (logs p).
Qed.

Lemma commit_view_ok before w :
  (∀ p, view w = Some p → view_ok p) →
  ∀ p, view (commit before w) = Some p → view_ok p.
Proof.
  intros H. unfold commit. destruct (decide _); [done|].
  destruct (view w) as [p|] eqn:Hv, (renders_ProgressView (home w));
    intros p' Hp'; simplify_eq/=; auto.
  - by apply (H p).
  - done.
Qed.

Lemma react_view_ok handler w :
  (∀ p, view (handler w) = Some p → view_ok p) →
  ∀ p, view (react handler w) = Some p → view_ok p.
Proof.
  intros H p. unfold react.
  destruct (view_render (view w) (commit (home w) (handler w))) as [-> | ->];
    [|done].
  by apply commit_view_ok.
Qed.

Lemma onmessage_view_ok payload w :
  (∀ p, view w = Some p → view_ok p) →
  ∀ p, view (onmessage payload w) = Some p → view_ok p.
Proof.
  intros H p'. unfold onmessage, addLog, setTimeout_onComplete.
  destruct payload as [m| |data]; simpl; auto.
  repeat case_match; simpl; auto.
  all: destruct (view w) as [p|] eqn:Hv; intros; simplify_eq/=.
  all: destruct (H p eq_refl) as (Hs & Hm & Hl).
  all: split; [|split]; simpl;
    [try done; by apply or_string_nonempty
    |try done; by apply or_string_nonempty
    |by destruct (logs p)].
Qed.

Lemma step_view_ok w e :
  (∀ p, view w = Some p → view_ok p) →
  ∀ p, view (step w e) = Some p → view_ok p.
Proof.
  intros H. destruct e as [ms|input b| |payload| | |]; simpl.
  - intros p. destruct (view_elapse ms w) as [-> | ->]; [auto|done].
  - destruct (renders_IdeaForm _); [|exact H].
    apply react_view_ok. by destruct (handleSubmit b input).
  - destruct (view w) as [p|] eqn:Hv; [|congruence].
    destruct (stream w) as [[]|]; try (rewrite Hv; exact H).
    apply react_view_ok. simpl. rewrite Hv. intros ? [= <-].
    apply view_ok_setLogs. by apply H.
  - destruct (stream w) as [[]|]; try exact H.
    apply react_view_ok. by apply onmessage_view_ok.
  - destruct (view w) as [p|] eqn:Hv; [|congruence].
    destruct (stream w) as [[]|]; try (rewrite Hv; exact H).
    all: apply react_view_ok; simpl; rewrite Hv; exact H.
  - destruct (view w) as [p|] eqn:Hv; [|congruence].
    destruct (stream w) as [[]|]; simpl; rewrite Hv; exact H.
  - destruct (_ || _); [|exact H]. by apply react_view_ok.
Qed.

Lemma run_view_ok es : ∀ w,
  (∀ p, view w = Some p → view_ok p) →
  ∀ p, view (run w es) = Some p → view_ok p.
Proof.
  induction es as [|e es IH]; intros w H; simpl; [done|].
  apply IH. by apply step_view_ok.
Qed.

(** X15. Wherever the client gets, the stage and the message that a
    mounted progress view holds are not empty -- an update without them, or
    with empty ones, puts the defaults there -- and its log begins with the
    line ["Pipeline started..."]. *)
Theorem progress_view_is_never_blank (prior : list Event) :
  match view (run World_initial prior) with
  | Some p =>
      stage p ≠ "" ∧ message p ≠ ""
      ∧ head (logs p) = Some "Pipeline started..."
  | None => True
  end.
Proof.
  destruct (view (run World_initial prior)) as [p|] eqn:Hv; [|done].
  by apply (run_view_ok prior World_initial).
Qed.

(** *** Connections are never reused *)

Lemma sockets_kept_refl l : sockets_kept l l.
Proof. intros i c Hi. by exists c. Qed.

Lemma sockets_kept_trans l1 l2 l3 :
  sockets_kept l1 l2 → sockets_kept l2 l3 → sockets_kept l1 l3.
Proof.
  intros H12 H23 i c Hi.
  destruct (H12 i c Hi) as (c' & Hi' & Hu' & Hc').
  destruct (H23 i c' Hi') as (c'' & Hi'' & Hu'' & Hc'').
  exists c''. split; [done|]. split; [congruence|auto].
Qed.

Lemma sockets_kept_close n l : sockets_kept l (close n l).
Proof.
  intros i c Hi. unfold close. destruct (decide (n = i)) as [->|Hne].
  - exists (set_readyState CLOSED c). by rewrite list_lookup_alter_eq, Hi.
  - exists c. by rewrite list_lookup_alter_ne.
Qed.

Lemma sockets_kept_app l more : sockets_kept l (l ++ more).
Proof. intros i c Hi. exists c. split; [by apply lookup_app_l_Some|done]. Qed.

Lemma sockets_kept_commit before w :
  sockets_kept (sockets w) (sockets (commit before w)).
Proof.
  unfold commit. destruct (decide _); [apply sockets_kept_refl|].
  destruct (view w) as [p|], (renders_ProgressView (home w)); simpl.
  - eapply sockets_kept_trans; [apply sockets_kept_close|apply sockets_kept_app].
  - apply sockets_kept_close.
  - apply sockets_kept_app.
  - apply sockets_kept_refl.
Qed.

Lemma sockets_kept_react handler w :
  sockets_kept (sockets (handler w)) (sockets (react handler w)).
Proof.
  unfold react. eapply sockets_kept_trans; [apply sockets_kept_commit|].
  unfold render. repeat case_match; try apply sockets_kept_refl.
  apply sockets_kept_close.
Qed.

Lemma sockets_onmessage payload w : sockets (onmessage payload w) = sockets w.
Proof.
  unfold onmessage. destruct payload as [m| |data]; try done.
  by repeat case_match.
Qed.

Lemma sockets_kept_step w e : sockets_kept (sockets w) (sockets (step w e)).
Proof.
  destruct e as [ms|input b| |payload| | |]; simpl.
  - unfold elapse. set (w' := with_now _ _).
    assert (Hw' : sockets_kept (sockets w) (sockets w')) by apply sockets_kept_refl.
    clearbody w'.
    induction (filter _ (timers w)) as [|d due IH]; [done|].
    simpl. eapply sockets_kept_trans; [exact IH|].
    unfold timer_fires. destruct (crashed _); [apply sockets_kept_refl|].
    apply (sockets_kept_react (set_home handleComplete)).
  - destruct (renders_IdeaForm _); [|apply sockets_kept_refl].
    unfold submit.
    match goal with |- context [react ?h w] =>
      eapply sockets_kept_trans; [|apply (sockets_kept_react h)] end.
    destruct (handleSubmit b input) as [issued c]. apply sockets_kept_refl.
  - destruct (view w) as [p|] eqn:Hv; [|apply sockets_kept_refl].
    destruct (stream w) as [[]|] eqn:Hs; try apply sockets_kept_refl.
    eapply sockets_kept_trans;
      [|apply (sockets_kept_react onopen)]. simpl.
    intros i c Hi. destruct (decide (ws p = i)) as [<-|Hne].
    + exists (set_readyState OPEN c). rewrite list_lookup_alter_eq, Hi.
      split; [done|]. split; [done|].
      unfold stream, readyState_of in Hs. rewrite Hv in Hs. simpl in Hs.
      rewrite Hi in Hs. simpl in Hs. congruence.
    + exists c. by rewrite list_lookup_alter_ne.
  - destruct (stream w) as [[]|]; try apply sockets_kept_refl.
    rewrite <- (sockets_onmessage payload w) at 1.
    apply sockets_kept_react.
  - destruct (view w) as [p|]; [|apply sockets_kept_refl].
    destruct (stream w) as [[]|]; try apply sockets_kept_refl.
    all: eapply sockets_kept_trans;
      [apply (sockets_kept_close (ws p))
      |apply (sockets_kept_react onerror (set_sockets _ w))].
  - destruct (view w) as [p|]; [|apply sockets_kept_refl].
    destruct (stream w) as [[]|]; try apply sockets_kept_refl.
    all: apply sockets_kept_close.
  - destruct (_ || _); [|apply sockets_kept_refl].
    apply (sockets_kept_react (set_home handleReset) w).
Qed.

Lemma sockets_kept_run es : ∀ w, sockets_kept (sockets w) (sockets (run w es)).
Proof.
  induction es as [|e es IH]; intros w; simpl; [apply sockets_kept_refl|].
  eapply sockets_kept_trans; [apply sockets_kept_step|apply IH].
Qed.

(** X16. A connection, once made, stays in its place with its URL, whatever
    happens next, and a connection that was closed is closed for good: no
    event reopens or reuses it. *)
Theorem connections_are_never_reused
    (w : World) (es : list Event) (i : nat) (c : WebSocket) :
  sockets w !! i = Some c →
  ∃ c', sockets (run w es) !! i = Some c'
        ∧ url c' = url c
        ∧ (readyState c = CLOSED → readyState c' = CLOSED).
Proof. apply sockets_kept_run. Qed.

(** *** Requests that fail *)

Lemma handleSubmit_rejected b input body :
  truthy_string (trim input) = true →
  generate_idea b (parse_idea input).1 (parse_idea input).2
    = response false body →
  handleSubmit b input =
    ([POST "/api/generate_idea" (parse_idea input).1 (parse_idea input).2],
     onError
       match body with
       | json_value a => Error_message (detail a)
       | json_rejects _ => "Failed to start pipeline"
       end).
Proof.
  intros Hin Hgen. unfold handleSubmit, handleSubmit_try. rewrite Hin.
  destruct (parse_idea input) as [idea industry]. simpl in *.
  unfold mbind, Try_bind, fetch, json, throw, mret, Try_ret. simpl.
  rewrite Hgen. simpl. by destruct body.
Qed.

Lemma handleSubmit_status_failed b input data body :
  truthy_string (trim input) = true →
  generate_idea b (parse_idea input).1 (parse_idea input).2
    = response true (json_value data) →
  api_status b ("/api/status/" +:+ template_string (task_id data))
    = response false body →
  handleSubmit b input =
    ([POST "/api/generate_idea" (parse_idea input).1 (parse_idea input).2;
      GET ("/api/status/" +:+ template_string (task_id data))],
     onError "Failed to check task status").
Proof.
  intros Hin Hgen Hst. unfold handleSubmit, handleSubmit_try. rewrite Hin.
  destruct (parse_idea input) as [idea industry]. simpl in *.
  unfold mbind, Try_bind, fetch, json, throw, mret, Try_ret. simpl.
  rewrite Hgen. simpl. by rewrite Hst.
Qed.

Lemma or_string_truthy v d :
  truthy_string d = true → truthy_string (or_string v d) = true.
Proof. intros Hd. unfold or_string. by destruct v as [[|c s]|]. Qed.

(** The error view shows a message that is not empty as it is. *)
Lemma ErrorView_text_shown m :
  truthy_string m = true → ErrorView_text (Some m) = m.
Proof. intros H. unfold ErrorView_text, or_string. by rewrite H. Qed.

(** The message of the error made from a [detail] that is a string. *)
Lemma Error_message_string s :
  Error_message (Some (J_string s)) = or_string (Some s) "Failed to start pipeline".
Proof. unfold Error_message, or_string. simpl. by destruct (truthy_string s). Qed.

(** The error view that a submission ends in when it fails. *)
Lemma step_submit_error w input b issued m :
  wf w → home_ok (home w) →
  currentView (home w) = Input → handleSubmit b input = (issued, onError m) →
  home (step w (Submit input b))
    = {| currentView := Error; taskId := None; error := Some m |}
  ∧ network (step w (Submit input b)) = network w ++ issued
  ∧ view (step w (Submit input b)) = None.
Proof.
  intros Hwf Hok Hin Hsub.
  rewrite (step_submit _ _ _ _ _ Hin (input_view_unmounted w Hwf Hin) Hsub).
  unfold home_ok in Hok. rewrite Hin in Hok. destruct Hok as [Hid _].
  rewrite home_commit, network_commit. simpl.
  split; [unfold handleError; by rewrite Hid|]. split; [done|].
  rewrite commit_idle; simpl; [|by apply input_view_unmounted|done].
  by apply input_view_unmounted.
Qed.

(** X17. A submission from the input view whose text is not blank ends in
    the error view when a request is answered with a status that is not ok.
    For the POST that creates the job, whose body, when it parses, is an
    object, the message is the text of the [detail] of that body when it
    has one that is truthy -- the string itself for a string that is not
    empty, and what [String] makes of any other value, such as
    ["[object Object]"] for a list of objects -- and ["Failed to start
    pipeline"] otherwise, also when the body is not JSON; no further
    request is made. For the status request it is ["Failed to check task
    status"], and the results are not requested. The error view shows that
    message, or its own fallback text when the message is empty. *)
Theorem failed_requests_are_shown
    (prior : list Event) (input : string) (b : Backend) :
  let w := run World_initial prior in
  let w' := step w (Submit input b) in
  let idea := (parse_idea input).1 in
  let industry := (parse_idea input).2 in
  let post := POST "/api/generate_idea" idea industry in
  currentView (home w) = Input →
  truthy_string (trim input) = true →
  (∀ body, generate_idea b idea industry = response false body →
     let shown :=
       match body with
       | json_value a => Error_message (detail a)
       | json_rejects _ => "Failed to start pipeline"
       end in
     home w' = {| currentView := Error; taskId := None; error := Some shown |}
     ∧ network w' = network w ++ [post]
     ∧ view w' = None
     ∧ ErrorView_text (error (home w')) =
         (if truthy_string shown then shown else "An unexpected error occurred")
     ∧ (∀ a s, body = json_value a → detail a = Some (J_string s) →
          truthy_string s = true → shown = s)
     ∧ (∀ a, body = json_value a → detail a = None →
          shown = "Failed to start pipeline"))
  ∧ (∀ data body,
       generate_idea b idea industry = response true (json_value data) →
       api_status b ("/api/status/" +:+ template_string (task_id data))
         = response false body →
       home w' = {| currentView := Error; taskId := None;
                    error := Some "Failed to check task status" |}
       ∧ network w' = network w ++
           [post; GET ("/api/status/" +:+ template_string (task_id data))]
       ∧ view w' = None
       ∧ ErrorView_text (error (home w')) = "Failed to check task status").
Proof.
  intros w w' idea industry post Hin Htext.
  assert (Hwf : wf w) by apply reachable_wf.
  assert (Hok : home_ok (home w)) by apply reachable_home_ok.
  split.
  - intros body Hgen shown.
    destruct (step_submit_error w input b _ _ Hwf Hok Hin
                (handleSubmit_rejected b input body Htext Hgen))
      as (Hh & Hn & Hv).
    fold w' in Hh, Hn, Hv. split; [done|]. split; [done|]. split; [done|].
    split; [by rewrite Hh|]. split.
    + intros a s -> Hd Hs. subst shown. rewrite Hd, Error_message_string.
      unfold or_string. by rewrite Hs.
    + intros a -> Hd. subst shown. by rewrite Hd.
  - intros data body Hgen Hst.
    destruct (step_submit_error w input b _ _ Hwf Hok Hin
                (handleSubmit_status_failed b input data body Htext Hgen Hst))
      as (Hh & Hn & Hv).
    fold w' in Hh, Hn, Hv. split; [done|]. split; [done|]. split; [done|].
    by rewrite Hh.
Qed.

(** X18. A submission, from the input view, of a job that the backend
    reports as completed and whose results are fetched ends in the results
    view, after the three requests, with no progress view mounted. The task
    identifier it has there is the [task_id] of the results, so
    [ResultsView] is rendered when the results carry a [task_id] that is
    not empty, and only then. *)
Theorem direct_completion_needs_a_task_id
    (prior : list Event) (input : string) (b : Backend)
    (data : GenerateBody) (sd : StatusBody) (r : ResultsBody) :
  let w := run World_initial prior in
  let w' := step w (Submit input b) in
  let idea := (parse_idea input).1 in
  let industry := (parse_idea input).2 in
  let id := template_string (task_id data) in
  currentView (home w) = Input →
  truthy_string (trim input) = true →
  generate_idea b idea industry = response true (json_value data) →
  api_status b ("/api/status/" +:+ id) = response true (json_value sd) →
  status sd = Some "completed" →
  api_results b ("/api/results/" +:+ id) = response true (json_value r) →
  home w' =
    {| currentView := Results;
       taskId := if truthy (result_task_id r) then result_task_id r else None;
       error := None |}
  ∧ renders_ResultsView (home w') = truthy (result_task_id r)
  ∧ view w' = None
  ∧ (handleSubmit b input).1 =
      [POST "/api/generate_idea" idea industry;
       GET ("/api/status/" +:+ id); GET ("/api/results/" +:+ id)].
Proof.
  intros w w' idea industry id Hin Htext Hgen Hst Hdone Hres.
  assert (Hwf : wf w) by apply reachable_wf.
  assert (Hok : home_ok (home w)) by apply reachable_home_ok.
  unfold home_ok in Hok. rewrite Hin in Hok. destruct Hok as [Hid _].
  destruct (handleSubmit_accepted b input data sd Htext Hgen Hst) as [_ Hc].
  destruct (Hc Hdone) as [Hsub _]. specialize (Hsub r Hres).
  unfold w'.
  rewrite (step_submit _ _ _ _ _ Hin (input_view_unmounted w Hwf Hin) Hsub), Hsub.
  rewrite home_commit. simpl.
  unfold handleDirectComplete, renders_ResultsView. simpl. rewrite Hid.
  split; [done|]. split; [by destruct (truthy (result_task_id r)) eqn:Hr|].
  split; [|done].
  rewrite commit_idle; simpl; [|by apply input_view_unmounted|done].
  by apply input_view_unmounted.
Qed.

(** *** Updates with fields missing *)

Lemma label_of_no_stage (s : option string) :
  truthy s = false → ToString (stage_label s) = template_string s.
Proof. by destruct s as [[|c s]|]. Qed.

(** X19. An update delivered by the open stream that lacks a field gets
    the default for it: the progress is 0 when the update has none; the
    stage is ["unknown"] when the update has none or an empty one, while
    the log line is printed from the stage of the update itself
    ([undefined] when it has none) and from the rounded progress, as
    JavaScript prints a number; the message is ["Processing..."] when the
    update has none or an empty one. The stage ["__proto__"] is left out:
    the view cannot render it. *)
Theorem missing_fields_get_defaults
    (w : World) (p : ProgressView) (data : ProgressUpdate) :
  view w = Some p → streaming w → is_update data →
  data_stage data ≠ Some "__proto__" →
  ∃ p', view (step w (ws_message (JSON_object data))) = Some p'
    ∧ (data_progress data = None →
         progress p' = 0%Q ∧ displayed_percentage p' = 0)
    ∧ (truthy (data_stage data) = false →
         stage p' = "unknown"
         ∧ last (logs p') =
             Some (log_entry (now w)
                     (template_string (data_stage data) +:+ ": " +:+
                      Number_toString
                        (inject_Z (Math_round (or_number (data_progress data) 0)))
                      +:+ "%")))
    ∧ (truthy (data_message data) = false → message p' = "Processing...").
Proof.
  intros Hv Hs Hd Hr. rewrite (step_update w p data Hv Hs Hd Hr).
  eexists. split; [done|]. simpl. split; [|split].
  - by intros ->.
  - intros Hst. split; [by destruct (data_stage data) as [[|c s]|]|].
    rewrite last_snoc. unfold progress_line. by rewrite label_of_no_stage.
  - intros Hm. by destruct (data_message data) as [[|c s]|].
Qed.

(** *** The moves between views *)

(** X23. Wherever the client gets, one event takes the view shell from the
    progress view nowhere but to the results view or to the error view, and
    it brings the view shell back to the input view only by a click on
    reset, in the results view or in the error view. *)
Theorem views_move_along_the_allowed_lines (prior : list Event) (e : Event) :
  let w := run World_initial prior in
  let a := currentView (home w) in
  let b := currentView (home (step w e)) in
  (a = Progress → b = Progress ∨ b = Results ∨ b = Error)
  ∧ (b = Input → a = Input ∨ e = ClickReset ∧ (a = Results ∨ a = Error)).
Proof.
  intros w a b. subst a b. assert (Hwf : wf w) by apply reachable_wf.
  assert (Hany : ∀ h : Home,
    currentView h = currentView (home w) ∨ currentView h = Results
    ∨ currentView h = Error →
    (currentView (home w) = Progress →
       currentView h = Progress ∨ currentView h = Results ∨ currentView h = Error)
    ∧ (currentView h = Input →
       currentView (home w) = Input
       ∨ e = ClickReset
         ∧ (currentView (home w) = Results ∨ currentView (home w) = Error))).
  { intros h [Hh|[Hh|Hh]]; rewrite Hh; split; auto; try done. }
  destruct e as [ms|input b| |payload| | |]; simpl.
  - apply Hany. destruct (home_elapse ms w) as [-> | ->]; simpl; auto.
  - unfold renders_IdeaForm. case_bool_decide as Hin; [|by apply Hany; left].
    rewrite Hin. split; [done|auto].
  - apply Hany. destruct (view w), (stream w) as [[]|]; auto.
    rewrite home_react. simpl. auto.
  - apply Hany. destruct (stream w) as [[]|] eqn:Hs; auto.
    rewrite home_react.
    destruct (home_onmessage payload w) as [->|[_ [m ->]]]; simpl; auto.
  - apply Hany. destruct (view w) as [p|] eqn:Hv; [|auto].
    destruct (stream w) as [[]|]; auto.
    all: rewrite home_react; simpl; auto.
  - apply Hany. destruct (view w), (stream w) as [[]|]; auto.
  - unfold renders_ResultsView, renders_ErrorView.
    destruct (_ || _) eqn:Hr; [|by apply Hany; left].
    unfold reset. rewrite home_react. simpl.
    apply orb_prop in Hr as [Hr|Hr].
    + apply andb_prop in Hr as [Hr%bool_decide_eq_true _]. rewrite Hr.
      split; [done|auto].
    + apply bool_decide_eq_true in Hr. rewrite Hr. split; [done|auto].
Qed.

(** *** A stage that cannot be rendered *)

(** What a delivered update whose stage is ["__proto__"] does: the handler
    runs, and the render that follows throws. *)
Lemma step_unrenderable w p data :
  view w = Some p → streaming w → is_update data →
  data_stage data = Some "__proto__" →
  step w (ws_message (JSON_object data)) =
    unmount_tree p
      (with_view
         (Some {| progress := or_number (data_progress data) 0;
                  stage := or_string (data_stage data) "unknown";
                  message := or_string (data_message data) "Processing...";
                  logs := logs p ++ [log_entry (now w) (progress_line data)];
                  ws := ws p |}) w).
Proof.
  intros Hv Hs Hd Hst. simpl. rewrite Hs.
  assert (Hon : onmessage (JSON_object data) w =
      with_view
         (Some {| progress := or_number (data_progress data) 0;
                  stage := or_string (data_stage data) "unknown";
                  message := or_string (data_message data) "Processing...";
                  logs := logs p ++ [log_entry (now w) (progress_line data)];
                  ws := ws p |}) w).
  { unfold onmessage.
    assert (bool_decide (data_type data = Some "progress")
            || bool_decide (data_type data = Some "status") = true) as ->.
    { destruct Hd as [Hd|Hd]; rewrite Hd; [done|]. apply orb_true_r. }
    unfold addLog, set_view, with_view. simpl. by rewrite Hv. }
  unfold react. rewrite commit_same by by rewrite Hon.
  rewrite Hon.
  match goal with |- context [with_view (Some ?q) w] =>
    rewrite (render_thrown _ _ q) end; [done|done| |].
  - simpl. rewrite Hv. intros [= Heq]. apply (f_equal logs) in Heq. simpl in Heq.
    apply (f_equal length) in Heq. rewrite length_app in Heq. simpl in Heq. lia.
  - apply render_throws_stage. simpl. by rewrite Hst.
Qed.

Lemma fires_crashed w (due : list N) :
  crashed w = true → foldr (λ _, timer_fires) w due = w.
Proof.
  intros Hc. induction due as [|d due IH]; simpl; [done|].
  rewrite IH. unfold timer_fires. by rewrite Hc.
Qed.

(** Once the tree is unmounted, nothing listens to any event. *)
Lemma crashed_step w e :
  wf w → crashed w = true →
  wf (step w e) ∧ crashed (step w e) = true
  ∧ home (step w e) = home w ∧ view (step w e) = None
  ∧ sockets (step w e) = sockets w
  ∧ console (step w e) = console w ∧ network (step w e) = network w.
Proof.
  intros Hwf Hc. split; [by apply step_wf|].
  pose proof (crashed_unmounted w Hwf Hc) as Hv.
  assert (Hp : currentView (home w) = Progress).
  { destruct Hwf as (_ & _ & [_ Hr]). specialize (Hr Hc).
    unfold renders_ProgressView in Hr. apply andb_prop in Hr as [Hr _].
    by apply bool_decide_eq_true in Hr. }
  destruct e as [ms|input b| |payload| | |]; simpl.
  - unfold elapse. by rewrite fires_crashed.
  - unfold renders_IdeaForm. by rewrite Hp.
  - by rewrite Hv.
  - unfold stream. by rewrite Hv.
  - by rewrite Hv.
  - by rewrite Hv.
  - unfold renders_ResultsView, renders_ErrorView. by rewrite Hp.
Qed.

Lemma crashed_run es : ∀ w,
  wf w → crashed w = true →
  crashed (run w es) = true
  ∧ home (run w es) = home w ∧ view (run w es) = None
  ∧ sockets (run w es) = sockets w
  ∧ console (run w es) = console w ∧ network (run w es) = network w.
Proof.
  induction es as [|e es IH]; intros w Hwf Hc.
  - simpl. by rewrite (crashed_unmounted w Hwf Hc).
  - rewrite run_cons.
    destruct (crashed_step w e Hwf Hc) as (Hwf' & Hc' & <- & _ & <- & <- & <-).
    by apply IH.
Qed.

(** X24. An update with the stage ["__proto__"] that the open stream
    delivers takes the page down. The lookup of that stage in the labels
    gives an object, which React refuses to render: the render throws, no
    component catches it, and the tree is unmounted -- the progress view
    with it, whose connection is closed. From then on no event is listened
    to: the state of the view shell stays at the progress view that is no
    longer rendered, no view is mounted, and no connection, console line or
    request is made. *)
Theorem unrenderable_stage_unmounts_the_tree
    (prior : list Event) (data : ProgressUpdate) (post : list Event) :
  let w := run World_initial prior in
  let w1 := step w (ws_message (JSON_object data)) in
  let w2 := run w1 post in
  streaming w → is_update data → data_stage data = Some "__proto__" →
  crashed w1 = true
  ∧ view w1 = None
  ∧ open_connections w1 = []
  ∧ home w1 = home w ∧ currentView (home w1) = Progress
  ∧ crashed w2 = true
  ∧ home w2 = home w1 ∧ view w2 = None
  ∧ sockets w2 = sockets w1 ∧ console w2 = console w1 ∧ network w2 = network w1.
Proof.
  intros w w1 w2 Hs Hd Hst.
  assert (Hwf : wf w) by apply reachable_wf.
  assert (Hwf1 : wf w1) by by apply step_wf.
  destruct (stream_Some _ _ Hs) as [p Hp].
  pose proof (step_unrenderable w p data Hp Hs Hd Hst) as Hw1. fold w1 in Hw1.
  assert (Hc1 : crashed w1 = true) by by rewrite Hw1.
  assert (Hv1 : view w1 = None) by by rewrite Hw1.
  assert (Hh1 : home w1 = home w) by by rewrite Hw1.
  split; [done|]. split; [done|].
  split; [by apply unmounted_no_connection|]. split; [done|].
  split; [rewrite Hh1; apply mounted_in_progress; [done|by rewrite Hp]|].
  by apply crashed_run.
Qed.

End Properties.

(** * The stage labels *)

Lemma STAGE_LABELS_truthy key label :
  STAGE_LABELS !! key = Some label → truthy_string label = true.
Proof.
  intros H.
  assert (Hall : map_Forall (λ _ v, truthy_string v = true) STAGE_LABELS).
  { apply map_Forall_to_list. by vm_compute; repeat constructor. }
  by apply (Hall key).
Qed.

(** X2. A stage key of the mapping shows its label. *)
Theorem stage_label_known key label :
  STAGE_LABELS !! key = Some label →
  stage_label (Some key) = js_string label
  ∧ ToString (stage_label (Some key)) = label.
Proof.
  intros H. unfold stage_label, get. simpl. rewrite H. simpl.
  by rewrite (STAGE_LABELS_truthy key label H).
Qed.

(** X3. A stage key that is neither in the mapping nor a name on
    [Object.prototype] shows itself. *)
Theorem stage_label_unknown key :
  STAGE_LABELS !! key = None → key ∉ Object_prototype →
  stage_label (Some key) = js_string key
  ∧ ToString (stage_label (Some key)) = key.
Proof.
  intros H Hp. unfold stage_label, get. simpl. rewrite H.
  by rewrite bool_decide_eq_false_2.
Qed.

(** C8. The stage key ["constructor"] is not in the mapping, yet the lookup
    does not fall back to the key: it finds the function that every object
    inherits, which is truthy. The view shows that function in place of the
    key, and the log line prints its source text. *)
Lemma stage_label_inherited_name :
  let data := update "progress" (Some "constructor") (Some 10%Q) (Some "Working...") in
  let w := step clock_ms "https:" sample_streaming (ws_message (JSON_object data)) in
  STAGE_LABELS !! "constructor" = None
  ∧ stage_label (Some "constructor") = js_inherited "constructor"
  ∧ displayed_stage <$> view w = Some (js_inherited "constructor")
  ∧ last (displayed_log w) = Some "[0] function Object() { [native code] }: 10%".
Proof. by vm_compute. Qed.

(** * The results screen *)

(** X21. Whatever the backend answers to the request that [ResultsView]
    makes when it mounts -- one GET of the results of its task -- the view
    leaves the loading screen. It shows the assets exactly when the
    response is ok and its body parses and carries a manifest; in every
    other case it shows that no results were found, and the failure is
    only written to the console. On both screens the reset button is
    there, and where the assets are shown the download button saves the
    manifest under the name of its identifier. *)
Theorem results_view_settles (taskId : string) (answer : Fetched ResultsData) :
  let '(issued, lines, s) := fetchResults taskId answer ResultsView_initial in
  issued = [GET ("/api/results/" +:+ taskId)]
  ∧ loading s = false
  ∧ (∀ m, ResultsView_render s = ShowsAssets m
          ↔ answer = response true (json_value {| data_manifest := Some m |}))
  ∧ (ResultsView_render s = NoResultsFound
     ∨ ∃ m, ResultsView_render s = ShowsAssets m)
  ∧ offers_reset (ResultsView_render s) = true
  ∧ (∀ m, ResultsView_render s = ShowsAssets m →
          downloadManifest s = Some ("manifest_" +:+ manifest_id m +:+ ".json"))
  ∧ match answer with
    | response true (json_value _) => lines = ["Results data:"]
    | _ => ∃ message, lines = ["Error fetching results: " +:+ message]
    end.
Proof.
  unfold fetchResults, fetchResults_try.
  unfold mbind, Try_bind, fetch, json, throw, mret, Try_ret. simpl.
  destruct answer as [m|[] [m|[[x|]]]]; simpl.
  all: split; [done|]; split; [done|].
  all: split; [intros x'; split; [intros [=]|intros [=]]; by subst|].
  all: split; [eauto|]; split; [done|].
  all: split; [by intros ? [= <-]|eauto].
Qed.

(** * Examples *)

(** A final event, then a progress update, a close of the connection from
    outside, and 1500 ms. *)
Lemma final_event_witness :
  let post := [ws_message (JSON_object sample_publishing); ws_close;
               Elapse 1500] in
  let w1 := step clock_ms "https:" sample_streaming (ws_message (JSON_object sample_final)) in
  streaming sample_streaming
  ∧ Forall quiet post
  ∧ currentView (home (run clock_ms "https:" w1 post)) = Results
  ∧ transitions Progress Results (views clock_ms "https:" w1 post) = 1%nat.
Proof.
  assert (Hq : Forall quiet
    [ws_message (JSON_object sample_publishing); ws_close; Elapse 1500]).
  { apply Forall_cons. split.
    - split; [discriminate|]. intros [_ H]. discriminate H.
    - repeat constructor. }
  split; [reflexivity|]. split; [exact Hq|].
  destruct (final_event_completes clock_ms "https:" sample_prior sample_final _
              eq_refl eq_refl Hq) as (_ & _ & _ & _ & _ & _ & Hlong & _).
  destruct Hlong as (Hr & Ht & _); [by vm_compute|]. split; [exact Hr|exact Ht].
Defined.

(** An error event with a message, after a status update, then more
    events of the stream. *)
Lemma error_event_witness :
  let prior := sample_prior ++ [ws_message (JSON_object sample_status)] in
  let post := [ws_message (JSON_object sample_final); ws_open; ws_close] in
  let w := run clock_ms "https:" World_initial prior in
  let w1 := step clock_ms "https:" w
              (ws_message (JSON_object (sample_error (Some "Quota exceeded")))) in
  streaming w
  ∧ Forall stream_event post
  ∧ error (home w1) = Some "Quota exceeded"
  ∧ view w1 = None
  ∧ run clock_ms "https:" w1 post = w1.
Proof.
  assert (Hp : Forall stream_event
            [ws_message (JSON_object sample_final); ws_open; ws_close])
    by (repeat constructor).
  split; [reflexivity|]. split; [exact Hp|].
  destruct (error_event_ends_stream clock_ms "https:"
              (sample_prior ++ [ws_message (JSON_object sample_status)])
              (sample_error (Some "Quota exceeded")) _ eq_refl eq_refl Hp)
    as (Hh & Hv & _ & Hrun).
  split; [exact (f_equal error Hh)|]. split; [exact Hv|exact Hrun].
Defined.

(** The three updates of the scenario, delivered to the sample view. *)
Lemma progress_events_witness :
  view sample_streaming = Some sample_view
  ∧ Forall (λ f, is_update f.2 ∧ data_stage f.2 ≠ Some "__proto__") sample_frames
  ∧ ∃ p', view (run clock_ms "https:" sample_streaming (arrivals sample_frames)) = Some p'
      ∧ displayed_percentage p' = 90
      ∧ logs p' = logs sample_view ++
          ["[0] Ideation: 0%"; "[10] Pitch Writing: 45%"; "[30] Publishing: 90%"].
Proof.
  assert (Hf : Forall (λ f, is_update f.2 ∧ data_stage f.2 ≠ Some "__proto__")
                 sample_frames).
  { repeat (apply Forall_cons; split;
              [split; [left; reflexivity|discriminate]|]).
    constructor. }
  split; [reflexivity|]. split; [exact Hf|].
  destruct (progress_events_are_displayed clock_ms "https:" sample_streaming
              sample_view sample_frames eq_refl eq_refl Hf) as (p' & Hp' & Hl & _ & Hlast).
  { intros d Hd. by apply elem_of_nil in Hd. }
  exists p'. split; [exact Hp'|]. split; [|exact Hl].
  exact (proj2 (proj2 (Hlast _ _ 90%Q eq_refl eq_refl)) 90 (Qeq_refl _)).
Defined.


(** A text of three spaces. *)
Lemma blank_submission_witness :
  let w' := step clock_ms "https:" World_initial
              (Submit "   " (sample_backend "t1" "running" true)) in
  whitespace_only "   " = true
  ∧ network w' = []
  ∧ error (home w') = Some "Please enter a startup idea".
Proof.
  split; [reflexivity|].
  destruct (blank_submission_is_rejected clock_ms "https:" World_initial "   "
              (sample_backend "t1" "running" true) eq_refl eq_refl)
    as (_ & Hn & _ & He).
  split; [exact Hn|exact He].
Defined.

(** The text of the specification's scenario. *)
Lemma submit_parses_witness :
  let input := "AI scheduling tool in healthcare" in
  truthy_string (trim input) = true
  ∧ ∃ more, (handleSubmit (sample_backend "t1" "running" true) input).1
            = POST "/api/generate_idea" "AI scheduling tool" "healthcare" :: more.
Proof.
  split; [reflexivity|].
  exact (proj1 (submit_parses_idea_and_industry (sample_backend "t1" "running" true)
                  "AI scheduling tool in healthcare" eq_refl)).
Defined.

(** The stage ["ideation"] of the mapping. *)
Lemma stage_label_known_witness :
  STAGE_LABELS !! "ideation" = Some "Ideation"
  ∧ stage_label (Some "ideation") = js_string "Ideation".
Proof.
  split; [reflexivity|].
  exact (proj1 (stage_label_known "ideation" "Ideation" eq_refl)).
Defined.

(** A stage that the mapping does not know. *)
Lemma stage_label_unknown_witness :
  STAGE_LABELS !! "deployment" = None
  ∧ stage_label (Some "deployment") = js_string "deployment".
Proof.
  split; [reflexivity|].
  refine (proj1 (stage_label_unknown "deployment" eq_refl _)).
  apply (bool_decide_unpack _). reflexivity.
Defined.

(** The channel fails while the sample stream is open. *)
Lemma channel_error_witness :
  streaming sample_streaming
  ∧ error (home (step clock_ms "https:" sample_streaming ws_error))
    = Some "Connection error. Please refresh and try again.".
Proof.
  split; [reflexivity|].
  exact (f_equal error
           (proj1 (channel_error_goes_to_error clock_ms "https:" sample_prior eq_refl))).
Defined.

(** The timer that a [final] event sets is not cancelled when the
    progress view is left: after an [error] event and a reset, it still
    fires, and moves the client from the input view to the results view
    with no task, where nothing is rendered. *)
Lemma stale_timer_after_reset :
  let es := sample_prior ++
            [ws_message (JSON_object sample_final);
             ws_message (JSON_object (sample_error (Some "Quota exceeded")));
             ClickReset; Elapse 1500] in
  let w := run clock_ms "https:" World_initial es in
  views clock_ms "https:" World_initial es
    = [Input; Progress; Progress; Progress; Error; Input; Results]
  ∧ home w = {| currentView := Results; taskId := None; error := None |}
  ∧ renders_ResultsView (home w) = false.
Proof. by vm_compute. Qed.

(** A frame of an unknown kind on the sample stream. *)
Lemma unknown_kind_witness :
  (data_type sample_heartbeat ∉ handled_kinds)
  ∧ step clock_ms "https:" sample_streaming
      (ws_message (JSON_object sample_heartbeat)) = sample_streaming.
Proof.
  assert (H : data_type sample_heartbeat ∉ handled_kinds).
  { apply (bool_decide_unpack _). reflexivity. }
  split; [exact H|].
  exact (unknown_kind_is_ignored clock_ms "https:" sample_streaming
           sample_heartbeat H).
Defined.

(** A final event on the sample stream, then 1500 ms. *)
Lemma results_for_task_witness :
  let w1 := step clock_ms "https:" sample_streaming
              (ws_message (JSON_object sample_final)) in
  streaming sample_streaming
  ∧ Forall quiet [Elapse 1500]
  ∧ home (run clock_ms "https:" w1 [Elapse 1500])
    = {| currentView := Results; taskId := Some "t1"; error := None |}.
Proof.
  assert (Hq : Forall quiet [Elapse 1500]) by (repeat constructor).
  split; [reflexivity|]. split; [exact Hq|].
  refine (proj1 (results_are_for_the_streamed_task clock_ms "https:" sample_prior
                   sample_final [Elapse 1500] eq_refl eq_refl Hq _)).
  simpl. lia.
Defined.

(** The connection of the sample stream, after the channel fails, the user
    resets and submits again. *)
Lemma connections_witness :
  let es := [ws_error; ClickReset;
             Submit "Drone delivery in logistics"
               (sample_backend "t2" "running" true); ws_open] in
  sockets sample_streaming !! 0%nat = Some sample_socket
  ∧ ∃ c', sockets (run clock_ms "https:" sample_streaming es) !! 0%nat = Some c'
          ∧ url c' = "wss://localhost:8000/ws/progress/t1".
Proof.
  split; [reflexivity|].
  destruct (connections_are_never_reused clock_ms "https:" sample_streaming
              [ws_error; ClickReset;
               Submit "Drone delivery in logistics"
                 (sample_backend "t2" "running" true); ws_open]
              0%nat sample_socket eq_refl) as (c' & Hc' & Hurl & _).
  exists c'. split; [exact Hc'|exact Hurl].
Defined.

(** A job that the backend refuses with a validation error: the error view
    shows what [String] makes of the list of objects. *)
Lemma failed_requests_witness :
  let input := "AI scheduling tool in healthcare" in
  let w' := step clock_ms "https:" World_initial
              (Submit input (sample_refusing (Some sample_validation_detail))) in
  truthy_string (trim input) = true
  ∧ home w' = {| currentView := Error; taskId := None;
                 error := Some "[object Object]" |}
  ∧ ErrorView_text (error (home w')) = "[object Object]".
Proof.
  split; [reflexivity|].
  destruct (failed_requests_are_shown clock_ms "https:" []
              "AI scheduling tool in healthcare"
              (sample_refusing (Some sample_validation_detail)) eq_refl eq_refl)
    as [Hrefused _].
  destruct (Hrefused _ eq_refl) as (Hh & _ & _ & Ht & _).
  split; [exact Hh|exact Ht].
Defined.

(** The messages made from other details: a string, an empty list, a
    number, and an object that has a property [toString]. *)
Lemma Error_message_examples :
  Error_message (Some (J_string "Idea too short")) = "Idea too short"
  ∧ Error_message (Some (J_string "")) = "Failed to start pipeline"
  ∧ Error_message (Some (J_array [])) = ""
  ∧ Error_message (Some (J_array [J_null; J_number 4.5; J_array [J_boolean true]]))
    = ",4.5,true"
  ∧ Error_message (Some (J_number 422)) = "422"
  ∧ Error_message (Some (J_object [("toString", J_string "x")]))
    = "Cannot convert object to primitive value"
  ∧ ErrorView_text (Some (Error_message (Some (J_array []))))
    = "An unexpected error occurred".
Proof. by vm_compute. Qed.

(** Numbers as the log and the error message print them. *)
Lemma Number_toString_examples :
  Number_toString 0 = "0"
  ∧ Number_toString 46 = "46"
  ∧ Number_toString (-3) = "-3"
  ∧ Number_toString 0.1 = "0.1"
  ∧ Number_toString (inject_Z (10 ^ 20)) = "100000000000000000000"
  ∧ Number_toString (inject_Z (10 ^ 21)) = "1e+21"
  ∧ Number_toString (inject_Z (Math_round (inject_Z (10 ^ 21)))) = "1e+21"
  ∧ Number_toString (inject_Z (12345 * 10 ^ 20)) = "1.2345e+24"
  ∧ progress_line
      (update "progress" (Some "ideation") (Some (inject_Z (10 ^ 21))) None)
    = "Ideation: 1e+21%".
Proof. by vm_compute. Qed.

(** A job that is already completed when its status is read. *)
Lemma direct_completion_witness :
  let input := "AI scheduling tool in healthcare" in
  let w' := step clock_ms "https:" World_initial
              (Submit input (sample_backend "t1" "completed" true)) in
  truthy_string (trim input) = true
  ∧ home w' = {| currentView := Results; taskId := Some "t1"; error := None |}
  ∧ renders_ResultsView (home w') = true.
Proof.
  split; [reflexivity|].
  destruct (direct_completion_needs_a_task_id clock_ms "https:" []
              "AI scheduling tool in healthcare"
              (sample_backend "t1" "completed" true)
              {| task_id := Some "t1"; detail := None |}
              {| status := Some "completed" |}
              {| result_task_id := Some "t1" |}
              eq_refl eq_refl eq_refl eq_refl eq_refl eq_refl)
    as (Hh & Hr & _).
  split; [exact Hh|exact Hr].
Defined.

(** An update with no stage, no progress and no message. *)
Lemma missing_fields_witness :
  let w' := step clock_ms "https:" sample_streaming
              (ws_message (JSON_object sample_bare)) in
  view sample_streaming = Some sample_view
  ∧ is_update sample_bare
  ∧ data_stage sample_bare ≠ Some "__proto__"
  ∧ ∃ p', view w' = Some p'
      ∧ stage p' = "unknown" ∧ message p' = "Processing..."
      ∧ displayed_percentage p' = 0
      ∧ last (logs p') = Some "[0] undefined: 0%".
Proof.
  assert (Hd : is_update sample_bare) by (left; reflexivity).
  assert (Hr : data_stage sample_bare ≠ Some "__proto__") by discriminate.
  split; [reflexivity|]. split; [exact Hd|]. split; [exact Hr|].
  destruct (missing_fields_get_defaults clock_ms "https:" sample_streaming
              sample_view sample_bare eq_refl eq_refl Hd Hr)
    as (p' & Hp' & Hprogress & Hstage & Hmessage).
  exists p'. split; [exact Hp'|].
  split; [exact (proj1 (Hstage eq_refl))|].
  split; [exact (Hmessage eq_refl)|].
  split; [exact (proj2 (Hprogress eq_refl))|exact (proj2 (Hstage eq_refl))].
Defined.

(** A reset of the sample stream, whose connection is open: the connection
    is closed, and the progress view is gone. *)
Lemma reset_witness :
  let w' := reset "https:" sample_streaming in
  currentView (home sample_streaming) = Progress
  ∧ sockets sample_streaming =
      [{| url := "wss://localhost:8000/ws/progress/t1"; readyState := OPEN |}]
  ∧ is_Some (view sample_streaming)
  ∧ home w' = {| currentView := Input; taskId := None; error := None |}
  ∧ view w' = None
  ∧ sockets w' =
      [{| url := "wss://localhost:8000/ws/progress/t1"; readyState := CLOSED |}].
Proof.
  split; [reflexivity|]. split; [reflexivity|]. split; [by eexists|].
  destruct (reset_yields_input clock_ms "https:" sample_prior)
    as (Hh & Hv & _ & _ & _ & _).
  split; [exact Hh|]. split; [exact Hv|]. reflexivity.
Defined.

(** The update with the stage ["__proto__"] on the sample stream, and what
    the user and the stream do afterwards. *)
Lemma unrenderable_stage_witness :
  let post := [ws_message (JSON_object sample_final); Elapse 2000; ClickReset;
               Submit "Drone delivery in logistics"
                 (sample_backend "t2" "running" true)] in
  let w1 := step clock_ms "https:" sample_streaming
              (ws_message (JSON_object sample_proto)) in
  let w2 := run clock_ms "https:" w1 post in
  streaming sample_streaming
  ∧ is_update sample_proto
  ∧ crashed w1 = true ∧ view w1 = None
  ∧ sockets w1 =
      [{| url := "wss://localhost:8000/ws/progress/t1"; readyState := CLOSED |}]
  ∧ home w2 = {| currentView := Progress; taskId := Some "t1"; error := None |}
  ∧ view w2 = None ∧ sockets w2 = sockets w1 ∧ network w2 = network w1.
Proof.
  assert (Hd : is_update sample_proto) by (left; reflexivity).
  split; [reflexivity|]. split; [exact Hd|].
  destruct (unrenderable_stage_unmounts_the_tree clock_ms "https:" sample_prior
              sample_proto
              [ws_message (JSON_object sample_final); Elapse 2000; ClickReset;
               Submit "Drone delivery in logistics"
                 (sample_backend "t2" "running" true)]
              eq_refl Hd eq_refl)
    as (Hc & Hv & _ & Hh & _ & _ & Hh2 & Hv2 & Hs2 & _ & Hn2).
  split; [exact Hc|]. split; [exact Hv|]. split; [reflexivity|].
  split; [exact (eq_trans Hh2 Hh)|]. split; [exact Hv2|].
  split; [exact Hs2|exact Hn2].
Defined.

(** A text that begins with the delimiter. *)
Lemma blank_idea_witness :
  first_cut " in " " in fintech" "" "fintech"
  ∧ ∃ more,
      (handleSubmit (sample_backend "t1" "running" true) " in fintech").1
      = POST "/api/generate_idea" "" "fintech" :: more.
Proof.
  assert (Hcut : first_cut " in " " in fintech" "" "fintech").
  { split; [reflexivity|]. intros a' b' _. simpl. lia. }
  split; [exact Hcut|].
  exact (proj2 (proj2 (blank_idea_is_posted (sample_backend "t1" "running" true)
                         " in fintech" "" "fintech" Hcut eq_refl))).
Defined.

(** * Where the specification says more than the code does *)

(** C1 as stated fails: an [error] event after the [final] event moves the
    client to the error view, and the timer of the [final] event then moves
    it from there to the results view. The view never goes from Progress to
    Results. And a [progress] event after the [final] event puts the
    displayed progress back below 100. *)
Lemma final_then_error_counterexample :
  let after := [ws_message (JSON_object sample_final);
                ws_message (JSON_object (sample_error (Some "Quota exceeded")));
                Elapse 1500] in
  let back := [ws_message (JSON_object sample_final);
               ws_message (JSON_object sample_publishing)] in
  views clock_ms "https:" sample_streaming after = [Progress; Progress; Error; Results]
  ∧ transitions Progress Results (views clock_ms "https:" sample_streaming after) = 0%nat
  ∧ displayed_percentage <$> view (run clock_ms "https:" sample_streaming back) = Some 90.
Proof. by vm_compute. Qed.

(** C2 as stated fails: the error view does not carry the message of an
    [error] event whose message is empty, but a fallback text. *)
Lemma error_message_counterexample :
  let data := sample_error (Some "") in
  let w1 := step clock_ms "https:" sample_streaming (ws_message (JSON_object data)) in
  data_message data = Some ""
  ∧ currentView (home w1) = Error
  ∧ error (home w1) = Some "An error occurred".
Proof. by vm_compute. Qed.

(** C5 as stated fails: for the progress value 45.5 the percentage shown is
    46, which is not that value; the bar has the value itself. *)
Lemma rounded_percentage_counterexample :
  let data := update "progress" (Some "ideation") (Some 45.5%Q) (Some "Expanding idea...") in
  let w' := step clock_ms "https:" sample_streaming (ws_message (JSON_object data)) in
  displayed_percentage <$> view w' = Some 46
  ∧ bar_width <$> view w' = Some 45.5%Q
  ∧ Qeq_bool (inject_Z 46) 45.5 = false
  ∧ last (displayed_log w') = Some "[0] Ideation: 46%".
Proof. by vm_compute. Qed.


(** C9 as stated fails: the industry is not the part after the first
    [" in "] when that part has another [" in "] in it. For
    ["AI in health in Europe"] the part after the first delimiter is
    ["health in Europe"], which trimming leaves as it is, and the industry
    posted is ["health"]. *)
Lemma second_delimiter_counterexample :
  let input := "AI in health in Europe" in
  first_cut " in " input "AI" "health in Europe"
  ∧ trim "health in Europe" = "health in Europe"
  ∧ parse_idea input = ("AI", "health")
  ∧ (handleSubmit (sample_backend "t1" "running" true) input).1
    = [POST "/api/generate_idea" "AI" "health"; GET "/api/status/t1"].
Proof.
  split; [|by vm_compute]. split; [reflexivity|].
  intros [|c1 [|c2 a']] b'; simpl; [discriminate|discriminate|lia].
Qed.
